(** * rlgym_sim.utils.math: vector algebra and orientation conversions

    A shallow embedding of [rlgym_sim/utils/math.py] in exact real
    arithmetic.  NumPy arrays of floats become lists of reals (vectors),
    a record of four reals (quaternions) and a record of nine reals
    (3x3 matrices).  Arithmetic that Python can refuse, or answer with
    [nan]/[inf], is threaded through a small error monad that also keeps
    an audit log of every divisor and every radicand met on the way.
    The functions are compiled ([@jit(nopython=True)]): a list literal
    of integers stays a list of integers, and a float stored into it is
    truncated. *)

From Stdlib Require Import Reals Lra Psatz List Bool RNsatz.
Import ListNotations.
Open Scope R_scope.

(** ** Checked arithmetic

    [Chk A] is the type of a computation that either has no real-valued
    result ([None]: Python raises, or NumPy answers [nan] or [inf]) or
    returns a value together with the list of the critical operands it
    met: the argument of each square root and each divisor, in program
    order. *)

Inductive arith_op : Type :=
| OpSqrt (radicand : R)
| OpDiv (divisor : R).

Definition operand (o : arith_op) : R :=
  match o with
  | OpSqrt x => x
  | OpDiv d => d
  end.

Definition Chk (A : Type) : Type := option (A * list arith_op).

Definition ret {A : Type} (a : A) : Chk A := Some (a, []).

Definition raise {A : Type} : Chk A := None.

Definition bind {A B : Type} (c : Chk A) (k : A -> Chk B) : Chk B :=
  match c with
  | None => None
  | Some (a, ops) =>
      match k a with
      | None => None
      | Some (b, ops') => Some (b, ops ++ ops')
      end
  end.

Notation "x <- c ;; k" := (bind c (fun x => k))
  (at level 61, c at next level, right associativity).

(** The value of a computation, forgetting the audit log. *)
Definition value {A : Type} (c : Chk A) : option A :=
  match c with
  | None => None
  | Some (a, _) => Some a
  end.

(** The audit log of a computation (empty when it fails). *)
Definition audit {A : Type} (c : Chk A) : list arith_op :=
  match c with
  | None => []
  | Some (_, ops) => ops
  end.

(** Comparisons of floats as the conditions of [if] and [elif]. *)
Definition Rgtb (a b : R) : bool := if Rgt_dec a b then true else false.
Definition Rgeb (a b : R) : bool := if Rge_dec a b then true else false.
Definition Reqb (a b : R) : bool := if Req_dec_T a b then true else false.
Definition Rneqb (a b : R) : bool := negb (Reqb a b).

Infix ">?" := Rgtb (at level 70, no associativity) : R_scope.
Infix ">=?" := Rgeb (at level 70, no associativity) : R_scope.
Infix "==?" := Reqb (at level 70, no associativity) : R_scope.
Infix "!=?" := Rneqb (at level 70, no associativity) : R_scope.

(** [a / b] on floats: no real result when [b = 0]. *)
Definition py_div (a b : R) : Chk R :=
  if b ==? 0 then raise else Some (a / b, [OpDiv b]).

(** [x ** 0.5] and [np.sqrt(x)]: [nan] below zero. *)
Definition py_sqrt (x : R) : Chk R :=
  if 0 >? x then raise else Some (sqrt x, [OpSqrt x]).

(** The conversion of a float to an integer, as the assignment of a
    float to an item of an integer list makes it in the compiled
    functions: the fractional part is dropped, towards zero. *)
Definition trunc (x : R) : Z :=
  if x >=? 0 then Int_part x else (- Int_part (- x))%Z.

(** [q[i] = x] with [q] a list of integers: the integer stored, read
    back as a number. *)
Definition store_int (x : R) : R := IZR (trunc x).

(** ** NumPy primitives on one-dimensional arrays *)

Definition vec : Type := list R.

Fixpoint zip_with (f : R -> R -> R) (a b : vec) : vec :=
  match a, b with
  | x :: a', y :: b' => f x y :: zip_with f a' b'
  | _, _ => []
  end.

(** The sum of the products of the components, on the common prefix. *)
Fixpoint inner (a b : vec) : R :=
  match a, b with
  | x :: a', y :: b' => x * y + inner a' b'
  | _, _ => 0
  end.

(** [np.dot(a, b)]: shapes must be aligned. *)
Definition np_dot (a b : vec) : Chk R :=
  if Nat.eq_dec (length a) (length b) then ret (inner a b) else raise.

(** [np.subtract(x, y)]: element-wise, an array of length one is
    broadcast, any other pair of different lengths is refused. *)
Definition np_subtract (x y : vec) : Chk vec :=
  if Nat.eq_dec (length x) (length y) then ret (zip_with Rminus x y)
  else match x, y with
       | [a], _ => ret (map (fun b => a - b) y)
       | _, [b] => ret (map (fun a => a - b) x)
       | _, _ => raise
       end.

(** [np.multiply(c, v)] with a scalar [c]. *)
Definition np_multiply (c : R) (v : vec) : vec := map (Rmult c) v.

(** [np.divide(a, b)] on scalars: [inf] or [nan] when [b = 0]. *)
Definition np_divide (a b : R) : Chk R := py_div a b.

(** [np.linalg.norm(v)]: the Euclidean norm. *)
Definition np_linalg_norm (v : vec) : R := sqrt (inner v v).

(** [np.arcsin], used by the source on [[-1, 1]] only. *)
Definition np_arcsin (x : R) : R := asin x.

(** [np.arctan2(y, x)]: the angle of the point [(x, y)], in
    [(-PI, PI]]. *)
Definition np_arctan2 (y x : R) : R :=
  if x >? 0 then atan (y / x)
  else if 0 >? x then
         if y >=? 0 then atan (y / x) + PI else atan (y / x) - PI
       else if y >? 0 then PI / 2
            else if 0 >? y then - (PI / 2)
                 else 0.

(** ** Vector kernel *)

Definition get_dist (x y : vec) : Chk vec := np_subtract x y.

Definition vecmag (v : vec) : R := np_linalg_norm v.

Definition squared_vecmag (v : vec) : R :=
  let x := np_linalg_norm v in x * x.

Definition vecdot (a b : vec) : Chk R := np_dot a b.

Definition vector_projection (v dest_vec : vec) (mag_squared : option R)
  : Chk vec :=
  let project (mag_squared : R) : Chk vec :=
    if mag_squared ==? 0 then ret dest_vec
    else
      dot <- np_dot v dest_vec ;;
      c <- np_divide dot mag_squared ;;
      ret (np_multiply c dest_vec) in
  match mag_squared with
  | None =>
      let norm := vecmag dest_vec in
      if norm ==? 0 then ret dest_vec
      else project (norm * norm)
  | Some mag_squared => project mag_squared
  end.

Definition scalar_projection (v dest_vec : vec) : Chk R :=
  let norm := vecmag dest_vec in
  if norm ==? 0 then ret 0
  else
    d <- np_dot v dest_vec ;;
    py_div d norm.

(** ** Orientation kernel: data *)

Record quat : Type := mkquat { qw : R; qx : R; qy : R; qz : R }.

Definition qneg (q : quat) : quat :=
  mkquat (- qw q) (- qx q) (- qy q) (- qz q).

(** [q = [0,0,0,0]] followed by the four assignments [q[i] = ...]: in
    a compiled function the literal is a list of integers, so each
    float assigned is converted to an integer.  The list is read as a
    quaternion. *)
Definition int_list (q0 q1 q2 q3 : R) : quat :=
  mkquat (store_int q0) (store_int q1) (store_int q2) (store_int q3).

(** The components of a quaternion after such a store. *)
Definition qtrunc (q : quat) : quat :=
  int_list (qw q) (qx q) (qy q) (qz q).

(** [np.dot(quat, quat)] on an array of four components. *)
Definition qdot (a b : quat) : R :=
  qw a * qw b + qx a * qx b + qy a * qy b + qz a * qz b.

Definition qnorm (q : quat) : R := sqrt (qdot q q).

(** [mIJ] is the entry [m[I, J]]: row [I], column [J]. *)
Record mat3 : Type := mkmat3 {
  m00 : R; m01 : R; m02 : R;
  m10 : R; m11 : R; m12 : R;
  m20 : R; m21 : R; m22 : R
}.

(** [np.zeros((3, 3))]. *)
Definition zeros33 : mat3 := mkmat3 0 0 0 0 0 0 0 0 0.

Definition identity33 : mat3 := mkmat3 1 0 0 0 1 0 0 0 1.

(** [np.trace(m)]. *)
Definition np_trace (m : mat3) : R := m00 m + m11 m + m22 m.

(** The columns of a matrix: the front, left and up directions. *)
Definition front (m : mat3) : R * R * R := (m00 m, m10 m, m20 m).
Definition left (m : mat3) : R * R * R := (m01 m, m11 m, m21 m).
Definition up (m : mat3) : R * R * R := (m02 m, m12 m, m22 m).

Definition dot3 (a b : R * R * R) : R :=
  let '(a0, a1, a2) := a in
  let '(b0, b1, b2) := b in
  a0 * b0 + a1 * b1 + a2 * b2.

Definition det3 (m : mat3) : R :=
  m00 m * (m11 m * m22 m - m12 m * m21 m)
  - m01 m * (m10 m * m22 m - m12 m * m20 m)
  + m02 m * (m10 m * m21 m - m11 m * m20 m).

(** The three columns are pairwise orthogonal unit vectors. *)
Definition orthonormal (m : mat3) : Prop :=
  dot3 (front m) (front m) = 1 /\
  dot3 (left m) (left m) = 1 /\
  dot3 (up m) (up m) = 1 /\
  dot3 (front m) (left m) = 0 /\
  dot3 (front m) (up m) = 0 /\
  dot3 (left m) (up m) = 0.

(** A proper rotation: orthonormal with determinant one. *)
Definition is_rotation (m : mat3) : Prop :=
  orthonormal m /\ det3 m = 1.

(** Two quaternions that are equal or opposite. *)
Definition same_up_to_sign (a b : quat) : Prop :=
  a = b \/ a = qneg b.

(** ** Orientation kernel: conversions *)

Definition quat_to_euler (quat : quat) : R * R * R :=
  let '(w, x, y, z) := (qw quat, qx quat, qy quat, qz quat) in
  let sinr_cosp := 2 * (w * x + y * z) in
  let cosr_cosp := 1 - 2 * (x * x + y * y) in
  let sinp := 2 * (w * y - z * x) in
  let siny_cosp := 2 * (w * z + x * y) in
  let cosy_cosp := 1 - 2 * (y * y + z * z) in
  let roll := np_arctan2 sinr_cosp cosr_cosp in
  let pitch :=
    if Rabs sinp >? 1 then PI / 2 else np_arcsin sinp in
  let yaw := np_arctan2 siny_cosp cosy_cosp in
  (- pitch, yaw, - roll).

Definition quat_to_rot_mtx (quat : quat) : Chk mat3 :=
  let w := - qw quat in
  let x := - qx quat in
  let y := - qy quat in
  let z := - qz quat in
  let norm := qdot quat quat in
  if norm !=? 0 then
    s <- py_div 1.0 norm ;;
    ret (mkmat3
           (1.0 - 2.0 * s * (y * y + z * z))   (* theta[0, 0] *)
           (2.0 * s * (x * y - z * w))         (* theta[0, 1] *)
           (2.0 * s * (x * z + y * w))         (* theta[0, 2] *)
           (2.0 * s * (x * y + z * w))         (* theta[1, 0] *)
           (1.0 - 2.0 * s * (x * x + z * z))   (* theta[1, 1] *)
           (2.0 * s * (y * z - x * w))         (* theta[1, 2] *)
           (2.0 * s * (x * z - y * w))         (* theta[2, 0] *)
           (2.0 * s * (y * z + x * w))         (* theta[2, 1] *)
           (1.0 - 2.0 * s * (x * x + y * y)))  (* theta[2, 2] *)
  else ret zeros33.

Definition rotation_to_quaternion (m : mat3) : Chk quat :=
  let trace := np_trace m in
  if trace >? 0 then
    s <- py_sqrt (trace + 1) ;;
    let q0 := s * 0.5 in
    s <- py_div 0.5 s ;;
    let q1 := (m21 m - m12 m) * s in
    let q2 := (m02 m - m20 m) * s in
    let q3 := (m10 m - m01 m) * s in
    ret (qneg (mkquat q0 q1 q2 q3))
  else if (m00 m >=? m11 m) && (m00 m >=? m22 m) then
    s <- py_sqrt (1 + m00 m - m11 m - m22 m) ;;
    inv_s <- py_div 0.5 s ;;
    let q1 := 0.5 * s in
    let q2 := (m10 m + m01 m) * inv_s in
    let q3 := (m20 m + m02 m) * inv_s in
    let q0 := (m21 m - m12 m) * inv_s in
    ret (qneg (mkquat q0 q1 q2 q3))
  else if m11 m >? m22 m then
    s <- py_sqrt (1 + m11 m - m00 m - m22 m) ;;
    inv_s <- py_div 0.5 s ;;
    let q1 := (m01 m + m10 m) * inv_s in
    let q2 := 0.5 * s in
    let q3 := (m12 m + m21 m) * inv_s in
    let q0 := (m02 m - m20 m) * inv_s in
    ret (qneg (mkquat q0 q1 q2 q3))
  else
    s <- py_sqrt (1 + m22 m - m00 m - m11 m) ;;
    inv_s <- py_div 0.5 s ;;
    let q1 := (m02 m + m20 m) * inv_s in
    let q2 := (m12 m + m21 m) * inv_s in
    let q3 := 0.5 * s in
    let q0 := (m10 m - m01 m) * inv_s in
    ret (qneg (mkquat q0 q1 q2 q3)).

Definition other_rot_to_quat (a : mat3) : Chk quat :=
  let trace := m00 a + m11 a + m22 a in
  if trace >? 0 then
    r <- py_sqrt (trace + 1.0) ;;
    s <- py_div 0.5 r ;;
    q0 <- py_div 0.25 s ;;
    let q1 := (m21 a - m12 a) * s in
    let q2 := (m02 a - m20 a) * s in
    let q3 := (m10 a - m01 a) * s in
    ret (int_list q0 q1 q2 q3)
  else if (m00 a >? m11 a) && (m00 a >? m22 a) then
    r <- py_sqrt (1.0 + m00 a - m11 a - m22 a) ;;
    let s := 2.0 * r in
    q0 <- py_div (m21 a - m12 a) s ;;
    let q1 := 0.25 * s in
    q2 <- py_div (m01 a + m10 a) s ;;
    q3 <- py_div (m02 a + m20 a) s ;;
    ret (int_list q0 q1 q2 q3)
  else if m11 a >? m22 a then
    r <- py_sqrt (1.0 + m11 a - m00 a - m22 a) ;;
    let s := 2.0 * r in
    q0 <- py_div (m02 a - m20 a) s ;;
    q1 <- py_div (m01 a + m10 a) s ;;
    let q2 := 0.25 * s in
    q3 <- py_div (m12 a + m21 a) s ;;
    ret (int_list q0 q1 q2 q3)
  else
    r <- py_sqrt (1.0 + m22 a - m00 a - m11 a) ;;
    let s := 2.0 * r in
    q0 <- py_div (m10 a - m01 a) s ;;
    q1 <- py_div (m02 a + m20 a) s ;;
    q2 <- py_div (m12 a + m21 a) s ;;
    let q3 := 0.25 * s in
    ret (int_list q0 q1 q2 q3).

(** ** Closed forms used in the statements *)

(** The matrix the source fills in when the squared norm is not zero:
    the negated components, scaled by the inverse of the squared norm. *)
Definition scaled_matrix (q : quat) : mat3 :=
  let w := - qw q in
  let x := - qx q in
  let y := - qy q in
  let z := - qz q in
  let s := 1 / qdot q q in
  mkmat3 (1 - 2 * s * (y * y + z * z)) (2 * s * (x * y - z * w)) (2 * s * (x * z + y * w))
         (2 * s * (x * y + z * w)) (1 - 2 * s * (x * x + z * z)) (2 * s * (y * z - x * w))
         (2 * s * (x * z - y * w)) (2 * s * (y * z + x * w)) (1 - 2 * s * (x * x + y * y)).

(** The four cases of the trace method: the component that is made
    the pivot of the conversion. *)
Inductive dominant : Type := DomW | DomX | DomY | DomZ.

(** The expression under the square root in each case. *)
Definition radicand (d : dominant) (m : mat3) : R :=
  match d with
  | DomW => np_trace m + 1
  | DomX => 1 + m00 m - m11 m - m22 m
  | DomY => 1 + m11 m - m00 m - m22 m
  | DomZ => 1 + m22 m - m00 m - m11 m
  end.

(** The quaternion each case builds, before any final negation. *)
Definition shepperd (d : dominant) (m : mat3) : quat :=
  let s := sqrt (radicand d m) in
  let h := / (2 * s) in
  match d with
  | DomW => mkquat (s / 2) ((m21 m - m12 m) * h) ((m02 m - m20 m) * h) ((m10 m - m01 m) * h)
  | DomX => mkquat ((m21 m - m12 m) * h) (s / 2) ((m01 m + m10 m) * h) ((m02 m + m20 m) * h)
  | DomY => mkquat ((m02 m - m20 m) * h) ((m01 m + m10 m) * h) (s / 2) ((m12 m + m21 m) * h)
  | DomZ => mkquat ((m10 m - m01 m) * h) ((m02 m + m20 m) * h) ((m12 m + m21 m) * h) (s / 2)
  end.

(** The case [rotation_to_quaternion] selects. *)
Definition rtq_case (m : mat3) : dominant :=
  if np_trace m >? 0 then DomW
  else if (m00 m >=? m11 m) && (m00 m >=? m22 m) then DomX
  else if m11 m >? m22 m then DomY
  else DomZ.

(** The case [other_rot_to_quat] selects. *)
Definition orq_case (a : mat3) : dominant :=
  if m00 a + m11 a + m22 a >? 0 then DomW
  else if (m00 a >? m11 a) && (m00 a >? m22 a) then DomX
  else if m11 a >? m22 a then DomY
  else DomZ.

(** The audit log [other_rot_to_quat] leaves in each case. *)
Definition orq_audit (d : dominant) (r : R) : list arith_op :=
  match d with
  | DomW => [OpSqrt r; OpDiv (sqrt r); OpDiv (0.5 / sqrt r)]
  | _ => [OpSqrt r; OpDiv (2.0 * sqrt r); OpDiv (2.0 * sqrt r); OpDiv (2.0 * sqrt r)]
  end.

(** The numerator two cases share: [cross d e m] is the entry
    combination that is four times the product of the components [d]
    and [e] of the quaternion of [m]; on the diagonal it is the
    radicand. *)
Definition cross (d e : dominant) (m : mat3) : R :=
  match d, e with
  | DomW, DomW | DomX, DomX | DomY, DomY | DomZ, DomZ => radicand d m
  | DomW, DomX | DomX, DomW => m21 m - m12 m
  | DomW, DomY | DomY, DomW => m02 m - m20 m
  | DomW, DomZ | DomZ, DomW => m10 m - m01 m
  | DomX, DomY | DomY, DomX => m01 m + m10 m
  | DomX, DomZ | DomZ, DomX => m02 m + m20 m
  | DomY, DomZ | DomZ, DomY => m12 m + m21 m
  end.

(** The component of a quaternion a case pivots on. *)
Definition qcomp (d : dominant) (q : quat) : R :=
  match d with
  | DomW => qw q
  | DomX => qx q
  | DomY => qy q
  | DomZ => qz q
  end.

(** A half turn about the diagonal of the front and left axes: its two
    largest diagonal entries tie, so the two conversions take
    different cases. *)
Definition half_turn_xy : mat3 := mkmat3 0 1 0 1 0 0 0 0 (-1).

(** The argument of the arcsine in [quat_to_euler]. *)
Definition sinp (q : quat) : R := 2 * (qw q * qy q - qz q * qx q).

(** The specification's pitch: the arcsine, clamped to the pole on the
    side of its argument when the argument leaves [[-1, 1]]. *)
Definition clamped_arcsin (x : R) : R :=
  if x >? 1 then PI / 2
  else if -1 >? x then - (PI / 2)
  else np_arcsin x.

(** The conversion as the specification words it: as [quat_to_euler],
    with the sign-matching clamp for the pitch. *)
Definition quat_to_euler_clamped (quat : quat) : R * R * R :=
  let '(w, x, y, z) := (qw quat, qx quat, qy quat, qz quat) in
  let roll := np_arctan2 (2 * (w * x + y * z)) (1 - 2 * (x * x + y * y)) in
  let pitch := clamped_arcsin (2 * (w * y - z * x)) in
  let yaw := np_arctan2 (2 * (w * z + x * y)) (1 - 2 * (y * y + z * z)) in
  (- pitch, yaw, - roll).

(** The point reflection: orthonormal columns, determinant -1. *)
Definition point_reflection : mat3 := mkmat3 (-1) 0 0 0 (-1) 0 0 0 (-1).

(** ** The remaining functions of the module *)

(** [v / c] and [np.divide(v, c)] with an array [v] and a scalar [c]:
    element by element; an empty array has no element to divide. *)
Fixpoint np_divide_each (v : vec) (c : R) : Chk vec :=
  match v with
  | [] => ret []
  | x :: v' =>
      q <- py_div x c ;;
      r <- np_divide_each v' c ;;
      ret (q :: r)
  end.

(** [v * c] with an array [v] and a scalar [c]. *)
Definition np_scale (v : vec) (c : R) : vec := map (fun x => x * c) v.

(** [v - c] with an array [v] and a scalar [c]. *)
Definition np_shift (v : vec) (c : R) : vec := map (fun x => x - c) v.

(** [np.mean(v)] of a one-dimensional array: the sum over the number
    of elements; [nan] on an empty array. *)
Definition np_mean (v : vec) : Chk R :=
  py_div (fold_right Rplus 0 v) (INR (length v)).

Definition vecmean (vecs : vec) : Chk R := np_mean vecs.

Definition unitvec (v : vec) : Chk vec := np_divide_each v (vecmag v).

Definition cosine_similarity (a b : vec) : Chk R :=
  ua <- np_divide_each a (np_linalg_norm a) ;;
  ub <- np_divide_each b (np_linalg_norm b) ;;
  np_dot ua ub.

(** [pyr] is the array (pitch, yaw, roll); [np.cos] and [np.sin] act
    on each component. *)
Definition euler_to_rotation (pyr : R * R * R) : mat3 :=
  let '(p, y, r) := pyr in
  let '(cp, cy, cr) := (cos p, cos y, cos r) in
  let '(sp, sy, sr) := (sin p, sin y, sin r) in
  mkmat3
    (cp * cy)                       (* theta[0, 0] *)
    (cy * sp * sr - cr * sy)        (* theta[0, 1] *)
    (- cr * cy * sp - sr * sy)      (* theta[0, 2] *)
    (cp * sy)                       (* theta[1, 0] *)
    (sy * sp * sr + cr * cy)        (* theta[1, 1] *)
    (- cr * sy * sp + sr * cy)      (* theta[1, 2] *)
    sp                              (* theta[2, 0] *)
    (- cp * sr)                     (* theta[2, 1] *)
    (cp * cr).                      (* theta[2, 2] *)

(** A random generator: the sequence of the floats it will draw and
    the number of floats drawn so far. *)
Record rng : Type := mkrng { draws : nat -> R; cursor : nat }.

(** [rng.random()]: the next float. *)
Definition rng_random (g : rng) : R * rng :=
  (draws g (cursor g), mkrng (draws g) (S (cursor g))).

(** [rng.random(3)]: the next three floats, as an array. *)
Definition rng_random3 (g : rng) : vec * rng :=
  ([draws g (cursor g); draws g (S (cursor g)); draws g (S (S (cursor g)))],
   mkrng (draws g) (S (S (S (cursor g))))).

(** Every float of the generator lies in [[0, 1)]. *)
Definition uniform01 (g : rng) : Prop := forall n, 0 <= draws g n < 1.

Definition rand_uvec3 (g : rng) : Chk vec * rng :=
  let '(u, g) := rng_random3 g in
  let v := np_shift u 0.5 in
  (np_divide_each v (np_linalg_norm v), g).

Definition rand_vec3 (max_norm : R) (g : rng) : Chk vec * rng :=
  let '(uvec, g) := rand_uvec3 g in
  let '(t, g) := rng_random g in
  (u <- uvec ;; ret (np_scale u (t * max_norm)), g).

(** The product of a quaternion by a scalar. *)
Definition qscale (k : R) (q : quat) : quat :=
  mkquat (k * qw q) (k * qx q) (k * qy q) (k * qz q).

(** The array [rand_uvec3] normalises. *)
Definition centred_draws (g : rng) : vec :=
  np_shift [draws g (cursor g); draws g (S (cursor g)); draws g (S (S (cursor g)))] 0.5.

(** A generator that always draws a quarter. *)
Definition quarter_rng : rng := mkrng (fun _ => 0.25) 0.

(** The unit quaternion (0, 3/5, 0, -4/5). *)
Definition q345 : quat := mkquat 0 (3 / 5) 0 (- (4 / 5)).

(** * Properties *)

(** ** Float literals

    The literals [0.5], [0.25], [1.0] and [2.0] of the source are kept
    as decimal literals in the definitions; these equations bring them
    to the form the [field] and [ring] tactics understand. *)

Lemma lit_half : 0.5 = / 2.
Proof. lra. Qed.

Lemma lit_quarter : 0.25 = / 4.
Proof. lra. Qed.

Lemma lit_one : 1.0 = 1.
Proof. lra. Qed.

Lemma lit_two : 2.0 = 2.
Proof. lra. Qed.

Ltac float_lits := rewrite ?lit_half, ?lit_quarter, ?lit_one, ?lit_two in *.

(** ** Comparisons and checked primitives *)

Lemma Rgtb_spec (a b : R) : reflect (a > b) (a >? b).
Proof. unfold Rgtb. destruct (Rgt_dec a b); constructor; assumption. Qed.

Lemma Rgeb_spec (a b : R) : reflect (a >= b) (a >=? b).
Proof. unfold Rgeb. destruct (Rge_dec a b); constructor; assumption. Qed.

Lemma Reqb_spec (a b : R) : reflect (a = b) (a ==? b).
Proof. unfold Reqb. destruct (Req_dec_T a b); constructor; assumption. Qed.

Lemma Rneqb_true (a b : R) : a <> b -> (a !=? b) = true.
Proof. intros H. unfold Rneqb. destruct (Reqb_spec a b); [contradiction | reflexivity]. Qed.

Lemma Rneqb_false (a b : R) : a = b -> (a !=? b) = false.
Proof. intros H. unfold Rneqb. destruct (Reqb_spec a b); [reflexivity | contradiction]. Qed.

Lemma Rgtb_true (a b : R) : a > b -> (a >? b) = true.
Proof. intros H. destruct (Rgtb_spec a b); [reflexivity | contradiction]. Qed.

Lemma Rgtb_false (a b : R) : a <= b -> (a >? b) = false.
Proof. intros H. destruct (Rgtb_spec a b); [lra | reflexivity]. Qed.

Lemma Rgeb_true (a b : R) : a >= b -> (a >=? b) = true.
Proof. intros H. destruct (Rgeb_spec a b); [reflexivity | contradiction]. Qed.

Lemma Rgeb_false (a b : R) : a < b -> (a >=? b) = false.
Proof. intros H. destruct (Rgeb_spec a b); [lra | reflexivity]. Qed.

Lemma Reqb_true (a b : R) : a = b -> (a ==? b) = true.
Proof. intros H. destruct (Reqb_spec a b); [reflexivity | contradiction]. Qed.

Lemma Reqb_false (a b : R) : a <> b -> (a ==? b) = false.
Proof. intros H. destruct (Reqb_spec a b); [contradiction | reflexivity]. Qed.

Lemma py_div_ok (a b : R) : b <> 0 -> py_div a b = Some (a / b, [OpDiv b]).
Proof. intros H. unfold py_div. rewrite Reqb_false; auto. Qed.

Lemma py_div_zero (a : R) : py_div a 0 = raise.
Proof. unfold py_div. rewrite Reqb_true; auto. Qed.

Lemma py_sqrt_ok (x : R) : 0 <= x -> py_sqrt x = Some (sqrt x, [OpSqrt x]).
Proof. intros H. unfold py_sqrt. rewrite Rgtb_false; auto. Qed.

Lemma py_sqrt_neg (x : R) : x < 0 -> py_sqrt x = raise.
Proof. intros H. unfold py_sqrt. rewrite Rgtb_true; auto. Qed.

(** ** Vector kernel *)

Lemma inner_zeros (n : nat) : inner (repeat 0 n) (repeat 0 n) = 0.
Proof. induction n as [|n IH]; simpl; [reflexivity | rewrite IH; ring]. Qed.

Lemma vecmag_zeros (n : nat) : vecmag (repeat 0 n) = 0.
Proof. unfold vecmag, np_linalg_norm. rewrite inner_zeros. apply sqrt_0. Qed.

Lemma inner_self_nonneg (v : vec) : 0 <= inner v v.
Proof. induction v as [|x v IH]; simpl; [lra | nra]. Qed.

Lemma vecmag_squared (v : vec) : vecmag v * vecmag v = inner v v.
Proof. unfold vecmag, np_linalg_norm. apply sqrt_sqrt, inner_self_nonneg. Qed.

Lemma squared_vecmag_inner (v : vec) : squared_vecmag v = inner v v.
Proof. apply vecmag_squared. Qed.

(** Only the zero vector has magnitude zero. *)
Lemma vecmag_zero_inv (v : vec) : vecmag v = 0 -> v = repeat 0 (length v).
Proof.
  intros H. pose proof (vecmag_squared v) as Hs. rewrite H in Hs.
  assert (Hz : inner v v = 0) by lra. clear H Hs.
  induction v as [|x v IH]; simpl in *; [reflexivity|].
  pose proof (inner_self_nonneg v) as Hv.
  assert (Hx : x = 0) by nra. subst x.
  f_equal. apply IH. lra.
Qed.

(** C7.  Projecting any vector onto a zero vector (of any length) gives
    that zero vector back, the scalar projection onto it is 0, and
    neither call fails, whatever the length of the first vector. *)
Theorem projection_onto_zero_vector (v : vec) (n : nat) :
  vector_projection v (repeat 0 n) None = ret (repeat 0 n) /\
  scalar_projection v (repeat 0 n) = ret 0.
Proof.
  unfold vector_projection, scalar_projection.
  rewrite vecmag_zeros, Reqb_true by reflexivity. split; reflexivity.
Qed.

(** The early return matters: onto a nonzero target of another
    length the projection does fail, at [np_dot]. *)
Example vector_projection_shape_mismatch :
  vector_projection [1; 2; 3] [1; 0] None = raise.
Proof.
  unfold vector_projection, vecmag, np_linalg_norm. cbn [inner].
  replace (1 * 1 + (0 * 0 + 0)) with 1 by ring. rewrite sqrt_1.
  rewrite !Reqb_false by lra. reflexivity.
Qed.

Lemma zip_with_length (f : R -> R -> R) (a b : vec) :
  length a = length b -> length (zip_with f a b) = length a.
Proof.
  revert b. induction a as [|x a IH]; intros [|y b] H; simpl in *;
    try discriminate; [reflexivity|]. f_equal. apply IH. congruence.
Qed.

(** The inner product is linear in the residual [a - c * b]. *)
Lemma inner_residual (c : R) (a b : vec) :
  length a = length b ->
  inner (zip_with Rminus a (np_multiply c b)) b = inner a b - c * inner b b.
Proof.
  revert b. induction a as [|x a IH]; intros [|y b] H; simpl in *;
    try discriminate; [ring|].
  rewrite IH by congruence. ring.
Qed.

(** The residual of a projection is orthogonal to the target, for
    vectors of any common length. *)
Lemma projection_residual_orthogonal (v onto : vec) :
  length v = length onto -> vecmag onto <> 0 ->
  exists p r,
    value (vector_projection v onto None) = Some p /\
    value (get_dist v p) = Some r /\
    value (np_dot r onto) = Some 0.
Proof.
  intros Hlen Hmag.
  assert (Hsq : vecmag onto * vecmag onto <> 0) by nra.
  unfold vector_projection.
  rewrite Reqb_false by assumption. rewrite Reqb_false by assumption.
  unfold np_dot at 1. destruct (Nat.eq_dec (length v) (length onto)); [|contradiction].
  unfold np_divide. simpl. rewrite py_div_ok by assumption. simpl.
  eexists. eexists. split; [reflexivity|].
  unfold get_dist, np_subtract, np_multiply. rewrite length_map.
  destruct (Nat.eq_dec (length v) (length onto)); [|contradiction].
  simpl. split; [reflexivity|].
  unfold np_dot. rewrite zip_with_length by (rewrite length_map; assumption).
  destruct (Nat.eq_dec (length v) (length onto)); [|contradiction].
  simpl. f_equal.
  fold (np_multiply (inner v onto / (vecmag onto * vecmag onto)) onto).
  rewrite inner_residual by assumption.
  rewrite vecmag_squared in *. field. assumption.
Qed.

(** C8.  For 3-component vectors [v] and [onto] with [onto] of nonzero
    magnitude and no precomputed squared magnitude, the projection [p]
    is computed, the residual [v - p] is computed, and its dot product
    with [onto] is exactly 0. *)
Theorem projection_residual_orthogonal3 (v onto : vec) :
  length v = 3%nat -> length onto = 3%nat -> vecmag onto <> 0 ->
  exists p r,
    value (vector_projection v onto None) = Some p /\
    value (get_dist v p) = Some r /\
    value (np_dot r onto) = Some 0.
Proof.
  intros Hv Ho Hmag. apply projection_residual_orthogonal; congruence.
Qed.

Lemma projection_residual_orthogonal3_witness :
  exists p r,
    value (vector_projection [1; 2; 3] [1; 0; 0] None) = Some p /\
    value (get_dist [1; 2; 3] p) = Some r /\
    value (np_dot r [1; 0; 0]) = Some 0.
Proof.
  apply (projection_residual_orthogonal3 [1; 2; 3] [1; 0; 0]).
  - reflexivity.
  - reflexivity.
  - unfold vecmag, np_linalg_norm. simpl.
    replace (1 * 1 + (0 * 0 + (0 * 0 + 0))) with 1 by ring.
    rewrite sqrt_1. lra.
Defined.

(** ** Quaternion to rotation matrix *)

Lemma quat_to_rot_mtx_nonzero (q : quat) :
  qdot q q <> 0 ->
  quat_to_rot_mtx q = Some (scaled_matrix q, [OpDiv (qdot q q)]).
Proof.
  intros H. unfold quat_to_rot_mtx, scaled_matrix.
  rewrite Rneqb_true by assumption.
  rewrite py_div_ok by assumption. simpl. float_lits. reflexivity.
Qed.

Lemma quat_to_rot_mtx_zero (q : quat) :
  qdot q q = 0 -> quat_to_rot_mtx q = ret zeros33.
Proof.
  intros H. unfold quat_to_rot_mtx. rewrite Rneqb_false by assumption. reflexivity.
Qed.

Lemma qdot_zero_inv (q : quat) : qdot q q = 0 -> q = mkquat 0 0 0 0.
Proof.
  destruct q as [w x y z]. unfold qdot. simpl. intros H.
  assert (w = 0) by nra. assert (x = 0) by nra.
  assert (y = 0) by nra. assert (z = 0) by nra. subst. reflexivity.
Qed.

Lemma qdot_qneg (q : quat) : qdot (qneg q) (qneg q) = qdot q q.
Proof. unfold qdot, qneg. simpl. ring. Qed.

Lemma scaled_matrix_qneg (q : quat) : scaled_matrix (qneg q) = scaled_matrix q.
Proof.
  unfold scaled_matrix. rewrite qdot_qneg. simpl.
  f_equal; ring.
Qed.

(** C5.  The identity quaternion is mapped to the identity matrix:
    front (1,0,0), left (0,1,0), up (0,0,1); in particular not to the
    all-zero matrix. *)
Theorem quat_to_rot_mtx_identity :
  value (quat_to_rot_mtx (mkquat 1 0 0 0)) = Some identity33 /\
  front identity33 = (1, 0, 0) /\
  left identity33 = (0, 1, 0) /\
  up identity33 = (0, 0, 1) /\
  identity33 <> zeros33.
Proof.
  split.
  - rewrite quat_to_rot_mtx_nonzero by (unfold qdot; simpl; lra).
    simpl. f_equal. unfold scaled_matrix, identity33, qdot. simpl.
    f_equal; field.
  - repeat split. intros H. apply (f_equal m00) in H. simpl in H. lra.
Qed.

(** C9.  Negating all four components of the input changes nothing:
    the result (matrix, failure status and audit log) is the same. *)
Theorem quat_to_rot_mtx_qneg (q : quat) :
  quat_to_rot_mtx (qneg q) = quat_to_rot_mtx q.
Proof.
  destruct (Req_dec_T (qdot q q) 0) as [Hz | Hnz].
  - rewrite !quat_to_rot_mtx_zero; [reflexivity | assumption |].
    rewrite qdot_qneg. assumption.
  - rewrite !quat_to_rot_mtx_nonzero; [| assumption |].
    + rewrite scaled_matrix_qneg, qdot_qneg. reflexivity.
    + rewrite qdot_qneg. assumption.
Qed.

(** The matrix of a quaternion with nonzero squared norm is a proper
    rotation. *)
Lemma scaled_matrix_rotation (q : quat) :
  qdot q q <> 0 -> is_rotation (scaled_matrix q).
Proof.
  destruct q as [w x y z]. unfold qdot. simpl. intros H.
  unfold is_rotation, orthonormal, det3, dot3, front, left, up, scaled_matrix, qdot.
  simpl. repeat split; field; assumption.
Qed.

(** C10.  For every quaternion with nonzero squared norm the conversion
    succeeds and its result has pairwise orthogonal unit columns and
    determinant 1. *)
Theorem quat_to_rot_mtx_rotation (q : quat) :
  qdot q q <> 0 ->
  exists m, value (quat_to_rot_mtx q) = Some m /\
            orthonormal m /\ det3 m = 1.
Proof.
  intros H. exists (scaled_matrix q). split.
  - rewrite quat_to_rot_mtx_nonzero by assumption. reflexivity.
  - apply scaled_matrix_rotation. assumption.
Qed.

Lemma quat_to_rot_mtx_rotation_witness :
  exists m, value (quat_to_rot_mtx (mkquat 0 3 0 4)) = Some m /\
            orthonormal m /\ det3 m = 1.
Proof.
  apply (quat_to_rot_mtx_rotation (mkquat 0 3 0 4)).
  unfold qdot. simpl. lra.
Defined.

(** A rotation matrix is never the all-zero matrix. *)
Lemma rotation_not_zeros (m : mat3) : orthonormal m -> m <> zeros33.
Proof.
  intros [H _] E. subst m. unfold dot3, front, zeros33 in H. simpl in H. lra.
Qed.

(** C6.  The conversion never fails.  It returns the all-zero matrix
    exactly when the squared norm is 0, which happens exactly for the
    zero quaternion; for every other input it returns the matrix built
    from the negated components scaled by the inverse squared norm. *)
Theorem quat_to_rot_mtx_degenerate (q : quat) :
  value (quat_to_rot_mtx (mkquat 0 0 0 0)) = Some zeros33 /\
  (qdot q q = 0 <-> q = mkquat 0 0 0 0) /\
  (value (quat_to_rot_mtx q) = Some zeros33 <-> qdot q q = 0) /\
  (qdot q q <> 0 -> value (quat_to_rot_mtx q) = Some (scaled_matrix q)) /\
  (exists m, value (quat_to_rot_mtx q) = Some m).
Proof.
  split; [| split; [| split; [| split]]].
  - rewrite quat_to_rot_mtx_zero; [reflexivity | unfold qdot; simpl; ring].
  - split; [apply qdot_zero_inv |]. intros ->. unfold qdot. simpl. ring.
  - split.
    + intros Hv. destruct (Req_dec_T (qdot q q) 0) as [Hz | Hnz]; [assumption|].
      rewrite quat_to_rot_mtx_nonzero in Hv by assumption. cbn [value] in Hv.
      assert (E : scaled_matrix q = zeros33) by congruence.
      exfalso. apply (rotation_not_zeros (scaled_matrix q)); [| assumption].
      apply scaled_matrix_rotation. assumption.
    + intros Hz. rewrite quat_to_rot_mtx_zero by assumption. reflexivity.
  - intros Hnz. rewrite quat_to_rot_mtx_nonzero by assumption. reflexivity.
  - destruct (Req_dec_T (qdot q q) 0) as [Hz | Hnz].
    + exists zeros33. rewrite quat_to_rot_mtx_zero by assumption. reflexivity.
    + exists (scaled_matrix q). rewrite quat_to_rot_mtx_nonzero by assumption. reflexivity.
Qed.

(** ** Rotation matrix to quaternion: the selected case *)

(** Whatever the matrix, the case either function selects has a
    radicand of at least 1: with a positive trace it is [trace + 1], and
    otherwise the pivot is a largest diagonal entry. *)
Lemma rtq_radicand_ge_1 (m : mat3) : 1 <= radicand (rtq_case m) m.
Proof.
  unfold rtq_case, np_trace.
  destruct (Rgtb_spec (m00 m + m11 m + m22 m) 0) as [Ht | Ht]; [simpl; unfold np_trace; lra|].
  destruct (Rgeb_spec (m00 m) (m11 m)) as [H1 | H1];
    destruct (Rgeb_spec (m00 m) (m22 m)) as [H2 | H2]; simpl;
    try destruct (Rgtb_spec (m11 m) (m22 m)) as [H3 | H3]; simpl; lra.
Qed.

Lemma orq_radicand_ge_1 (m : mat3) : 1 <= radicand (orq_case m) m.
Proof.
  unfold orq_case.
  destruct (Rgtb_spec (m00 m + m11 m + m22 m) 0) as [Ht | Ht]; [simpl; unfold np_trace; lra|].
  destruct (Rgtb_spec (m00 m) (m11 m)) as [H1 | H1];
    destruct (Rgtb_spec (m00 m) (m22 m)) as [H2 | H2]; simpl;
    try destruct (Rgtb_spec (m11 m) (m22 m)) as [H3 | H3]; simpl; lra.
Qed.

Lemma sqrt_pos_of_ge_1 (r : R) : 1 <= r -> 0 < sqrt r.
Proof. intros H. apply sqrt_lt_R0. lra. Qed.

(** [rotation_to_quaternion] never fails: it returns the negated
    quaternion of its case, after one square root and one division.
    [other_rot_to_quat] never fails either: it returns the quaternion
    of its case as stored in a list of integers. *)
Lemma rtq_eval (m : mat3) :
  let r := radicand (rtq_case m) m in
  rotation_to_quaternion m =
    Some (qneg (shepperd (rtq_case m) m), [OpSqrt r; OpDiv (sqrt r)]).
Proof.
  intros r. pose proof (rtq_radicand_ge_1 m) as Hr. fold r in Hr.
  pose proof (sqrt_pos_of_ge_1 r Hr) as Hs.
  unfold rotation_to_quaternion. subst r. unfold rtq_case in *.
  destruct (np_trace m >? 0);
    [| destruct ((m00 m >=? m11 m) && (m00 m >=? m22 m));
       [| destruct (m11 m >? m22 m)]];
    cbn [radicand] in *;
    (rewrite py_sqrt_ok by lra); cbn [bind];
    (rewrite py_div_ok by lra); cbn [bind ret app];
    unfold shepperd, qneg; cbn [radicand qw qx qy qz];
    float_lits; f_equal; f_equal; f_equal; field; lra.
Qed.

Lemma orq_eval (m : mat3) :
  let r := radicand (orq_case m) m in
  other_rot_to_quat m =
    Some (qtrunc (shepperd (orq_case m) m), orq_audit (orq_case m) r).
Proof.
  intros r. pose proof (orq_radicand_ge_1 m) as Hr. fold r in Hr.
  pose proof (sqrt_pos_of_ge_1 r Hr) as Hs.
  assert (Hh : / 2 / sqrt r <> 0).
  { apply Rmult_integral_contrapositive_currified; [lra|].
    apply Rinv_neq_0_compat. lra. }
  unfold other_rot_to_quat. subst r. unfold orq_case in *.
  fold (np_trace m) in *.
  destruct (np_trace m >? 0);
    [| destruct ((m00 m >? m11 m) && (m00 m >? m22 m));
       [| destruct (m11 m >? m22 m)]];
    cbn [radicand orq_audit] in *; float_lits.
  - rewrite py_sqrt_ok by lra. cbn [bind].
    rewrite py_div_ok by lra. cbn [bind].
    rewrite py_div_ok by assumption. cbn [bind ret app].
    unfold qtrunc, int_list, shepperd; cbn [radicand qw qx qy qz].
    f_equal; f_equal; f_equal; f_equal; field; lra.
  - rewrite py_sqrt_ok by lra. cbn [bind].
    rewrite !py_div_ok by lra. cbn [bind ret app].
    unfold qtrunc, int_list, shepperd; cbn [radicand qw qx qy qz].
    f_equal; f_equal; f_equal; f_equal; field; lra.
  - rewrite py_sqrt_ok by lra. cbn [bind].
    rewrite !py_div_ok by lra. cbn [bind ret app].
    unfold qtrunc, int_list, shepperd; cbn [radicand qw qx qy qz].
    f_equal; f_equal; f_equal; f_equal; field; lra.
  - rewrite py_sqrt_ok by lra. cbn [bind].
    rewrite !py_div_ok by lra. cbn [bind ret app].
    unfold qtrunc, int_list, shepperd; cbn [radicand qw qx qy qz].
    f_equal; f_equal; f_equal; f_equal; field; lra.
Qed.

(** Orthonormality and determinant of a matrix given by its entries. *)
Ltac rotation_by_ring :=
  unfold is_rotation, orthonormal, det3, dot3, front, left, up;
  cbn [m00 m01 m02 m10 m11 m12 m20 m21 m22];
  repeat split; ring.

(** ** Agreement of the four cases on a rotation matrix *)

Lemma qneg_involutive (q : quat) : qneg (qneg q) = q.
Proof. destruct q. unfold qneg. simpl. f_equal; ring. Qed.

Lemma same_up_to_sign_sym (a b : quat) :
  same_up_to_sign a b -> same_up_to_sign b a.
Proof.
  intros [H | H]; [left; congruence | right].
  rewrite H, qneg_involutive. reflexivity.
Qed.

Lemma same_up_to_sign_qneg_l (a b : quat) :
  same_up_to_sign a b -> same_up_to_sign (qneg a) b.
Proof.
  intros [H | H]; [right; congruence | left].
  rewrite H, qneg_involutive. reflexivity.
Qed.

Lemma cross_diag (d : dominant) (m : mat3) : cross d d m = radicand d m.
Proof. destruct d; reflexivity. Qed.

Lemma cross_sym (d e : dominant) (m : mat3) : cross d e m = cross e d m.
Proof. destruct d, e; reflexivity. Qed.

(** On a rotation matrix the shared numerators multiply like the
    products of quaternion components they stand for. *)
Lemma cross_identity (d e f : dominant) (m : mat3) :
  is_rotation m -> cross d e m * cross d f m = radicand d m * cross e f m.
Proof.
  intros [(H1 & H2 & H3 & H4 & H5 & H6) H7].
  destruct m as [a b c d' e' f' g h i].
  unfold det3, dot3, front, left, up in *.
  cbn [m00 m01 m02 m10 m11 m12 m20 m21 m22] in *.
  destruct d, e, f; unfold cross, radicand, np_trace;
    cbn [m00 m01 m02 m10 m11 m12 m20 m21 m22]; nsatz.
Qed.

Lemma radicand_sum (m : mat3) :
  radicand DomW m + radicand DomX m + radicand DomY m + radicand DomZ m = 4.
Proof. unfold radicand, np_trace. ring. Qed.

(** The trace of a rotation matrix is at least -1. *)
Lemma rotation_trace_ge (m : mat3) : is_rotation m -> -1 <= np_trace m.
Proof.
  intros Hrot.
  pose proof (cross_identity DomW DomX DomX m Hrot) as Hx.
  pose proof (cross_identity DomW DomY DomY m Hrot) as Hy.
  pose proof (cross_identity DomW DomZ DomZ m Hrot) as Hz.
  rewrite cross_diag in Hx, Hy, Hz.
  pose proof (radicand_sum m) as Hsum.
  assert (Hw : 0 <= radicand DomW m).
  { destruct (Rle_lt_dec 0 (radicand DomW m)) as [Hle | Hlt]; [assumption | exfalso].
    assert (radicand DomX m <= 0) by nra.
    assert (radicand DomY m <= 0) by nra.
    assert (radicand DomZ m <= 0) by nra.
    lra. }
  cbn [radicand] in Hw. lra.
Qed.

Lemma half_sqrt (r : R) : 0 < r -> sqrt r / 2 = r * / (2 * sqrt r).
Proof.
  intros H. pose proof (sqrt_lt_R0 r H) as Hs.
  pose proof (sqrt_sqrt r (Rlt_le _ _ H)) as Hss.
  rewrite <- Hss at 2. field. lra.
Qed.

(** Every component of a case's quaternion is a shared numerator over
    twice the square root of that case's radicand. *)
Lemma shepperd_cross (d : dominant) (m : mat3) :
  0 < radicand d m ->
  shepperd d m =
    mkquat (cross d DomW m * / (2 * sqrt (radicand d m)))
           (cross d DomX m * / (2 * sqrt (radicand d m)))
           (cross d DomY m * / (2 * sqrt (radicand d m)))
           (cross d DomZ m * / (2 * sqrt (radicand d m))).
Proof.
  intros H. pose proof (half_sqrt _ H) as Hh.
  destruct d; unfold shepperd; cbn [cross]; rewrite Hh; reflexivity.
Qed.

Lemma sign_split (a b c : R) :
  c * c = (a * a) * (b * b) -> c = a * b \/ c = - (a * b).
Proof.
  intros H. assert (E : (c - a * b) * (c + a * b) = 0) by lra.
  apply Rmult_integral in E. destruct E; [left | right]; lra.
Qed.

Lemma pivot_same (a b c e f : R) :
  0 < a -> 0 < b -> c = a * b -> c * e = a * a * f ->
  e * / (2 * a) = f * / (2 * b).
Proof.
  intros Ha Hb -> H.
  assert (E : e * b = f * a).
  { apply (Rmult_eq_reg_l a); [| lra]. lra. }
  apply (Rmult_eq_reg_l (2 * a * b)); [| nra].
  field_simplify; [| lra | lra]. lra.
Qed.

Lemma pivot_opposite (a b c e f : R) :
  0 < a -> 0 < b -> c = - (a * b) -> c * e = a * a * f ->
  e * / (2 * a) = - (f * / (2 * b)).
Proof.
  intros Ha Hb -> H.
  assert (E : e * b = - (f * a)).
  { apply (Rmult_eq_reg_l a); [| lra]. lra. }
  apply (Rmult_eq_reg_l (2 * a * b)); [| nra].
  field_simplify; [| lra | lra]. lra.
Qed.

(** On a rotation matrix any two cases whose radicands are positive
    build the same quaternion up to a global sign. *)
Lemma shepperd_agree (d d' : dominant) (m : mat3) :
  is_rotation m -> 0 < radicand d m -> 0 < radicand d' m ->
  same_up_to_sign (shepperd d m) (shepperd d' m).
Proof.
  intros Hrot Hd Hd'.
  rewrite (shepperd_cross d), (shepperd_cross d') by assumption.
  pose proof (sqrt_lt_R0 _ Hd) as Ha. pose proof (sqrt_lt_R0 _ Hd') as Hb.
  pose proof (sqrt_sqrt _ (Rlt_le _ _ Hd)) as Haa.
  pose proof (sqrt_sqrt _ (Rlt_le _ _ Hd')) as Hbb.
  set (a := sqrt (radicand d m)) in *. set (b := sqrt (radicand d' m)) in *.
  assert (Hk : forall e, cross d d' m * cross d e m = a * a * cross d' e m).
  { intros e. rewrite Haa. apply cross_identity. assumption. }
  assert (Hc : cross d d' m * cross d d' m = (a * a) * (b * b)).
  { rewrite Hk, cross_diag, Hbb. reflexivity. }
  destruct (sign_split _ _ _ Hc) as [Hs | Hs]; [left | right; unfold qneg; cbn [qw qx qy qz]].
  - f_equal; apply (pivot_same a b (cross d d' m)); auto.
  - f_equal; apply (pivot_opposite a b (cross d d' m)); auto.
Qed.

(** C4.  On every proper rotation matrix the trace is at least -1, the
    conversion succeeds, its only square root and its only division
    are those of the selected case, and both operands are strictly
    positive. *)
Theorem rotation_to_quaternion_positive_operands (m : mat3) :
  is_rotation m ->
  -1 <= np_trace m /\
  (exists q, value (rotation_to_quaternion m) = Some q) /\
  audit (rotation_to_quaternion m) =
    [OpSqrt (radicand (rtq_case m) m); OpDiv (sqrt (radicand (rtq_case m) m))] /\
  Forall (fun o => 0 < operand o) (audit (rotation_to_quaternion m)).
Proof.
  intros Hrot. split; [apply rotation_trace_ge; assumption|].
  rewrite rtq_eval. cbn [value audit]. split; [eexists; reflexivity|].
  split; [reflexivity|].
  pose proof (rtq_radicand_ge_1 m) as Hr.
  repeat constructor; cbn [operand]; [lra | apply sqrt_pos_of_ge_1; assumption].
Qed.

Lemma rotation_to_quaternion_positive_operands_witness :
  -1 <= np_trace half_turn_xy /\
  (exists q, value (rotation_to_quaternion half_turn_xy) = Some q) /\
  audit (rotation_to_quaternion half_turn_xy) =
    [OpSqrt (radicand (rtq_case half_turn_xy) half_turn_xy);
     OpDiv (sqrt (radicand (rtq_case half_turn_xy) half_turn_xy))] /\
  Forall (fun o => 0 < operand o) (audit (rotation_to_quaternion half_turn_xy)).
Proof.
  apply (rotation_to_quaternion_positive_operands half_turn_xy).
  unfold half_turn_xy. rotation_by_ring.
Defined.

(** At [half_turn_xy] the two conversions do take different cases. *)
Lemma half_turn_xy_cases :
  rtq_case half_turn_xy = DomX /\ orq_case half_turn_xy = DomY.
Proof.
  unfold rtq_case, orq_case, np_trace, half_turn_xy.
  cbn [m00 m01 m02 m10 m11 m12 m20 m21 m22].
  rewrite (Rgtb_false (0 + 0 + -1) 0) by lra.
  rewrite (Rgeb_true 0 0), (Rgeb_true 0 (-1)) by lra.
  rewrite (Rgtb_false 0 0), (Rgtb_true 0 (-1)) by lra.
  split; reflexivity.
Qed.

(** The determinant matters for the agreement of the cases: the
    point reflection has orthonormal columns and determinant -1, the
    two conversions select [DomX] and [DomZ] on it, and the
    quaternions of these two cases differ by more than a sign. *)
Lemma point_reflection_disagree :
  orthonormal point_reflection /\ det3 point_reflection = -1 /\
  rtq_case point_reflection = DomX /\ orq_case point_reflection = DomZ /\
  shepperd DomX point_reflection <> shepperd DomZ point_reflection /\
  shepperd DomX point_reflection <> qneg (shepperd DomZ point_reflection).
Proof.
  split; [| split; [| split; [| split]]].
  - unfold point_reflection. rotation_by_ring.
  - unfold point_reflection. rotation_by_ring.
  - unfold rtq_case, np_trace, point_reflection.
    cbn [m00 m01 m02 m10 m11 m12 m20 m21 m22].
    rewrite Rgtb_false, Rgeb_true by lra. reflexivity.
  - unfold orq_case, point_reflection.
    cbn [m00 m01 m02 m10 m11 m12 m20 m21 m22].
    rewrite (Rgtb_false (-1 + -1 + -1)), (Rgtb_false (-1) (-1)) by lra.
    reflexivity.
  - assert (Hz : qz (shepperd DomZ point_reflection) = sqrt 2 / 2).
    { unfold shepperd, point_reflection.
      cbn [radicand qz m00 m01 m02 m10 m11 m12 m20 m21 m22].
      replace (1 + -1 - -1 - -1) with 2 by ring. reflexivity. }
    assert (Hx : qz (shepperd DomX point_reflection) = 0).
    { unfold shepperd, point_reflection.
      cbn [radicand qz m00 m01 m02 m10 m11 m12 m20 m21 m22]. ring. }
    assert (H2 : 0 < sqrt 2) by (apply sqrt_lt_R0; lra).
    split; intros E; apply (f_equal qz) in E; rewrite Hx in E.
    + rewrite Hz in E. lra.
    + unfold qneg in E. cbn [qz] in E. rewrite Hz in E. lra.
Qed.

(** ** Round trip through the rotation matrix *)

Lemma cross_scaled (d e : dominant) (q : quat) :
  qdot q q <> 0 ->
  cross d e (scaled_matrix q) = 4 * qcomp d q * qcomp e q / qdot q q.
Proof.
  destruct q as [w x y z]. unfold scaled_matrix, qdot.
  cbn [qw qx qy qz]. intros H.
  destruct d, e; unfold cross, radicand, np_trace, qcomp;
    cbn [m00 m01 m02 m10 m11 m12 m20 m21 m22 qw qx qy qz]; field; assumption.
Qed.

Lemma sqrt_four_squares (c : R) : sqrt (4 * c * c) = 2 * Rabs c.
Proof.
  replace (4 * c * c) with (Rsqr (2 * c)) by (unfold Rsqr; ring).
  rewrite sqrt_Rsqr_abs, Rabs_mult, (Rabs_pos_eq 2) by lra. reflexivity.
Qed.

(** On the matrix of a unit quaternion every case with a positive
    radicand gives that quaternion back, up to a global sign. *)
Lemma shepperd_scaled (d : dominant) (q : quat) :
  qdot q q = 1 -> 0 < radicand d (scaled_matrix q) ->
  same_up_to_sign (shepperd d (scaled_matrix q)) q.
Proof.
  intros Hu Hr.
  assert (Hn : qdot q q <> 0) by lra.
  rewrite shepperd_cross by assumption.
  rewrite <- cross_diag in Hr |- *.
  rewrite !cross_scaled in * by assumption. rewrite Hu in *.
  replace (4 * qcomp d q * qcomp d q / 1) with (4 * qcomp d q * qcomp d q) in * by field.
  rewrite sqrt_four_squares.
  assert (Hc : qcomp d q <> 0) by nra.
  destruct (Rcase_abs (qcomp d q)) as [Hneg | Hpos].
  - right. rewrite (Rabs_left _ Hneg).
    destruct q as [w x y z]. unfold qneg. cbn [qw qx qy qz] in *.
    f_equal; destruct d; cbn [qcomp qw qx qy qz] in *; field; lra.
  - left. rewrite (Rabs_right _ Hpos).
    destruct q as [w x y z]. cbn [qw qx qy qz] in *.
    f_equal; destruct d; cbn [qcomp qw qx qy qz] in *; field; lra.
Qed.

Lemma qnorm_unit (q : quat) : qnorm q = 1 -> qdot q q = 1.
Proof.
  unfold qnorm. intros H.
  assert (Hnn : 0 <= qdot q q) by (unfold qdot; nra).
  rewrite <- (sqrt_sqrt _ Hnn), H. ring.
Qed.

(** Round trip of the primary conversion: for every unit quaternion
    [q] the matrix is built, [rotation_to_quaternion] succeeds on it
    and returns [q] or [-q]. *)
Lemma rotation_to_quaternion_round_trip (q : quat) :
  qnorm q = 1 ->
  exists m q1,
    value (quat_to_rot_mtx q) = Some m /\
    value (rotation_to_quaternion m) = Some q1 /\
    (q1 = q \/ q1 = qneg q).
Proof.
  intros Hq. apply qnorm_unit in Hq.
  exists (scaled_matrix q).
  exists (qneg (shepperd (rtq_case (scaled_matrix q)) (scaled_matrix q))).
  rewrite quat_to_rot_mtx_nonzero, rtq_eval by lra.
  cbn [value]. repeat split.
  apply same_up_to_sign_qneg_l, shepperd_scaled; [assumption|].
  pose proof (rtq_radicand_ge_1 (scaled_matrix q)). lra.
Qed.

(** ** Quaternion to Euler angles *)

(** The shape of the result: roll and yaw from [np_arctan2], the order
    and the signs [(-pitch, yaw, -roll)], and the pitch the source
    computes: [PI / 2] as soon as the magnitude of [sinp] exceeds 1,
    on either side. *)
Lemma quat_to_euler_unfold (q : quat) :
  quat_to_euler q =
    (- (if Rabs (sinp q) >? 1 then PI / 2 else np_arcsin (sinp q)),
     np_arctan2 (2 * (qw q * qz q + qx q * qy q))
                (1 - 2 * (qy q * qy q + qz q * qz q)),
     - np_arctan2 (2 * (qw q * qx q + qy q * qz q))
                  (1 - 2 * (qx q * qx q + qy q * qy q))).
Proof. reflexivity. Qed.

Lemma quat_to_euler_clamped_unfold (q : quat) :
  quat_to_euler_clamped q =
    (- clamped_arcsin (sinp q),
     np_arctan2 (2 * (qw q * qz q + qx q * qy q))
                (1 - 2 * (qy q * qy q + qz q * qz q)),
     - np_arctan2 (2 * (qw q * qx q + qy q * qz q))
                  (1 - 2 * (qx q * qx q + qy q * qy q))).
Proof. reflexivity. Qed.

(** From [sinp >= -1] on, the source computes the clamped pitch. *)
Lemma quat_to_euler_clamped_agree (q : quat) :
  -1 <= sinp q -> quat_to_euler q = quat_to_euler_clamped q.
Proof.
  intros H. rewrite quat_to_euler_unfold, quat_to_euler_clamped_unfold.
  do 2 f_equal. f_equal. unfold clamped_arcsin.
  rewrite (Rgtb_false (-1)) by lra.
  destruct (Rgtb_spec (sinp q) 1) as [Hgt | Hle].
  - rewrite Rgtb_true; [reflexivity|]. rewrite Rabs_pos_eq; lra.
  - rewrite Rgtb_false; [reflexivity|]. apply Rabs_le. lra.
Qed.

(** Below -1 the source answers the pole [PI / 2], the opposite of the
    clamp: the first component of the result is [- (PI / 2)] where the
    clamped conversion has [PI / 2]. *)
Lemma quat_to_euler_below_minus_one (q : quat) :
  sinp q < -1 ->
  fst (fst (quat_to_euler q)) = - (PI / 2) /\
  fst (fst (quat_to_euler_clamped q)) = PI / 2.
Proof.
  intros H. rewrite quat_to_euler_unfold, quat_to_euler_clamped_unfold.
  cbn [fst]. unfold clamped_arcsin.
  rewrite (Rgtb_true (Rabs (sinp q))) by (rewrite Rabs_left; lra).
  rewrite (Rgtb_false (sinp q)), (Rgtb_true (-1)) by lra.
  split; [reflexivity | ring].
Qed.

Lemma np_arctan2_negative_axis : np_arctan2 0 (-1) = PI.
Proof.
  unfold np_arctan2.
  rewrite (Rgtb_false (-1) 0), (Rgtb_true 0 (-1)), (Rgeb_true 0 0) by lra.
  replace (0 / -1) with 0 by field. rewrite atan_0. ring.
Qed.

(** C2.  At the quaternion (1, 0, -1, 0) the argument of the arcsine
    is -2.  The source returns [(- (PI / 2), PI, - PI)]: its pitch is
    [PI / 2], where the clamp on the side of the argument is
    [- (PI / 2)] and gives the different triple [(PI / 2, PI, - PI)]. *)
Theorem quat_to_euler_negative_pole :
  sinp (mkquat 1 0 (-1) 0) = -2 /\
  quat_to_euler (mkquat 1 0 (-1) 0) = (- (PI / 2), PI, - PI) /\
  quat_to_euler_clamped (mkquat 1 0 (-1) 0) = (PI / 2, PI, - PI) /\
  - (PI / 2) <> PI / 2.
Proof.
  assert (Hs : sinp (mkquat 1 0 (-1) 0) = -2) by (unfold sinp; cbn [qw qx qy qz]; ring).
  split; [assumption|].
  rewrite quat_to_euler_unfold, quat_to_euler_clamped_unfold, Hs.
  cbn [qw qx qy qz].
  replace (2 * (1 * 0 + 0 * -1)) with 0 by ring.
  replace (1 - 2 * (-1 * -1 + 0 * 0)) with (-1) by ring.
  replace (2 * (1 * 0 + -1 * 0)) with 0 by ring.
  replace (1 - 2 * (0 * 0 + -1 * -1)) with (-1) by ring.
  rewrite np_arctan2_negative_axis. unfold clamped_arcsin.
  rewrite (Rgtb_true (Rabs (-2))) by (rewrite Rabs_left; lra).
  rewrite (Rgtb_false (-2)), (Rgtb_true (-1)) by lra.
  repeat split.
  - do 2 f_equal. ring.
  - pose proof PI_RGT_0. lra.
Qed.

(** * Further properties of the vector kernel *)

Lemma np_divide_each_ok (v : vec) (c : R) :
  c <> 0 ->
  np_divide_each v c =
    Some (map (fun x => x / c) v, map (fun _ => OpDiv c) v).
Proof.
  intros Hc. induction v as [|x v IH]; [reflexivity|].
  cbn [np_divide_each map]. rewrite py_div_ok by assumption.
  rewrite IH. cbn [bind ret]. rewrite app_nil_r. reflexivity.
Qed.

Lemma np_divide_each_by_zero (x : R) (v : vec) :
  np_divide_each (x :: v) 0 = raise.
Proof. cbn [np_divide_each]. rewrite py_div_zero. reflexivity. Qed.

Lemma inner_comm (a b : vec) : inner a b = inner b a.
Proof.
  revert b. induction a as [|x a IH]; intros [|y b]; simpl; try reflexivity.
  rewrite IH. ring.
Qed.

Lemma inner_map_div (a b : vec) (c d : R) :
  c <> 0 -> d <> 0 ->
  inner (map (fun x => x / c) a) (map (fun x => x / d) b) = inner a b / (c * d).
Proof.
  intros Hc Hd. revert b.
  induction a as [|x a IH]; intros [|y b]; simpl; try (field; auto).
  rewrite IH. field. auto.
Qed.

Lemma inner_map_mult_l (c : R) (a b : vec) :
  inner (map (Rmult c) a) b = c * inner a b.
Proof.
  revert b. induction a as [|x a IH]; intros [|y b]; simpl; try ring.
  rewrite IH. ring.
Qed.

Lemma inner_opp_r (a b : vec) : inner a (map Ropp b) = - inner a b.
Proof.
  revert b. induction a as [|x a IH]; intros [|y b]; simpl; try ring.
  rewrite IH. ring.
Qed.

(** The squared length of [a - c * b]. *)
Lemma inner_residual_self (c : R) (a b : vec) :
  length a = length b ->
  inner (zip_with Rminus a (np_multiply c b)) (zip_with Rminus a (np_multiply c b))
  = inner a a - 2 * c * inner a b + c * c * inner b b.
Proof.
  revert b. induction a as [|x a IH]; intros [|y b] H; simpl in *;
    try discriminate; [ring|].
  rewrite IH by congruence. ring.
Qed.

Lemma inner_zero_r (a b : vec) : inner b b = 0 -> inner a b = 0.
Proof.
  revert a. induction b as [|y b IH]; intros [|x a] H; simpl in *; try reflexivity.
  pose proof (inner_self_nonneg b) as Hb.
  assert (Hy : y = 0) by nra. subst y.
  rewrite IH by lra. ring.
Qed.

(** The Cauchy-Schwarz inequality on arrays of one length. *)
Lemma cauchy_schwarz (a b : vec) :
  length a = length b ->
  inner a b * inner a b <= inner a a * inner b b.
Proof.
  intros Hlen.
  pose proof (inner_self_nonneg a) as Ha.
  pose proof (inner_self_nonneg b) as Hb.
  destruct (Req_dec_T (inner b b) 0) as [Hz | Hnz].
  - rewrite (inner_zero_r a b Hz), Hz. lra.
  - pose proof (inner_self_nonneg
                  (zip_with Rminus a (np_multiply (inner a b / inner b b) b))) as Hr.
    rewrite inner_residual_self in Hr by assumption.
    assert (E : inner a a - 2 * (inner a b / inner b b) * inner a b
                + inner a b / inner b b * (inner a b / inner b b) * inner b b
                = (inner a a * inner b b - inner a b * inner a b) / inner b b)
      by (field; assumption).
    rewrite E in Hr.
    assert (Hpos : 0 < inner b b) by lra.
    assert (H0 : 0 <= (inner a a * inner b b - inner a b * inner a b) / inner b b * inner b b)
      by (apply Rmult_le_pos; lra).
    replace ((inner a a * inner b b - inner a b * inner a b) / inner b b * inner b b)
      with (inner a a * inner b b - inner a b * inner a b) in H0 by (field; assumption).
    lra.
Qed.

Lemma vecmag_nonneg (v : vec) : 0 <= vecmag v.
Proof. apply sqrt_pos. Qed.

Lemma vecmag_pos (v : vec) : vecmag v <> 0 -> 0 < vecmag v.
Proof. intros H. pose proof (vecmag_nonneg v). lra. Qed.

Lemma vecmag_nil : vecmag [] = 0.
Proof. unfold vecmag, np_linalg_norm. simpl. apply sqrt_0. Qed.

(** X1.  [vecdot] does not depend on the order of its arguments:
    swapping them gives the same number, or the same failure when the
    lengths differ. *)
Theorem vecdot_comm (a b : vec) : vecdot a b = vecdot b a.
Proof.
  unfold vecdot, np_dot.
  destruct (Nat.eq_dec (length a) (length b)) as [E | E];
    destruct (Nat.eq_dec (length b) (length a)) as [E' | E'];
    try congruence.
  rewrite inner_comm. reflexivity.
Qed.

(** X2.  The squared magnitude is the dot product of a vector with
    itself: [vecdot v v] succeeds with the value [squared_vecmag v],
    which is never negative. *)
Theorem squared_vecmag_vecdot (v : vec) :
  value (vecdot v v) = Some (squared_vecmag v) /\ 0 <= squared_vecmag v.
Proof.
  unfold vecdot, np_dot.
  destruct (Nat.eq_dec (length v) (length v)) as [_ | E]; [| contradiction].
  rewrite squared_vecmag_inner. split; [reflexivity | apply inner_self_nonneg].
Qed.

(** X3.  A vector of nonzero magnitude is normalised to a vector of
    the same length and of magnitude exactly 1. *)
Theorem unitvec_magnitude (v : vec) :
  vecmag v <> 0 ->
  exists u, value (unitvec v) = Some u /\
            length u = length v /\ vecmag u = 1.
Proof.
  intros H. unfold unitvec. rewrite np_divide_each_ok by assumption.
  eexists. split; [reflexivity|]. split; [apply length_map|].
  unfold vecmag at 1, np_linalg_norm. rewrite inner_map_div by assumption.
  rewrite <- vecmag_squared.
  replace (vecmag v * vecmag v / (vecmag v * vecmag v)) with 1 by (field; assumption).
  apply sqrt_1.
Qed.

Lemma unitvec_magnitude_witness :
  exists u, value (unitvec [3; 0; 4]) = Some u /\
            length u = length [3; 0; 4] /\ vecmag u = 1.
Proof.
  apply (unitvec_magnitude [3; 0; 4]).
  unfold vecmag, np_linalg_norm. cbn [inner].
  replace (3 * 3 + (0 * 0 + (4 * 4 + 0))) with (5 * 5) by ring.
  rewrite sqrt_square; lra.
Defined.

(** X4.  [unitvec] has no real result exactly on the zero vectors with
    at least one component (where NumPy answers [nan]); the empty
    array is returned as it is. *)
Theorem unitvec_degenerate (v : vec) :
  (value (unitvec v) = None <-> v <> [] /\ vecmag v = 0) /\
  unitvec [] = ret [].
Proof.
  split; [| reflexivity].
  unfold unitvec. destruct (Req_dec_T (vecmag v) 0) as [Hz | Hnz].
  - rewrite Hz. destruct v as [|x v].
    + cbn. split; [discriminate | intros [H _]; contradiction].
    + rewrite np_divide_each_by_zero. cbn. split; [intros _; split; [discriminate | reflexivity] | reflexivity].
  - rewrite np_divide_each_ok by assumption. cbn.
    split; [discriminate | intros [_ H]; contradiction].
Qed.

(** ** Cosine similarity *)

Lemma cosine_similarity_value (a b : vec) :
  length a = length b -> vecmag a <> 0 -> vecmag b <> 0 ->
  value (cosine_similarity a b) = Some (inner a b / (vecmag a * vecmag b)).
Proof.
  intros Hlen Ha Hb. unfold cosine_similarity.
  fold (vecmag a). fold (vecmag b).
  rewrite !np_divide_each_ok by assumption. cbn [bind].
  unfold np_dot. rewrite !length_map.
  destruct (Nat.eq_dec (length a) (length b)); [| contradiction].
  cbn [ret value]. rewrite inner_map_div by assumption. reflexivity.
Qed.

Lemma Rabs_le_of_squares (x y : R) : 0 <= y -> x * x <= y * y -> Rabs x <= y.
Proof.
  intros Hy H. apply Rabs_le. split; nra.
Qed.

Lemma inner_abs_le (a b : vec) :
  length a = length b -> Rabs (inner a b) <= vecmag a * vecmag b.
Proof.
  intros Hlen. apply Rabs_le_of_squares.
  - apply Rmult_le_pos; apply vecmag_nonneg.
  - pose proof (cauchy_schwarz a b Hlen) as H.
    rewrite <- (vecmag_squared a), <- (vecmag_squared b) in H. lra.
Qed.

(** X5.  The cosine similarity of a nonzero vector with itself is
    exactly 1, and with its opposite exactly -1. *)
Theorem cosine_similarity_self (v : vec) :
  vecmag v <> 0 ->
  value (cosine_similarity v v) = Some 1 /\
  value (cosine_similarity v (map Ropp v)) = Some (-1).
Proof.
  intros H.
  assert (Hopp : vecmag (map Ropp v) = vecmag v).
  { unfold vecmag, np_linalg_norm. f_equal.
    rewrite inner_opp_r, inner_comm, inner_opp_r. ring. }
  split.
  - rewrite cosine_similarity_value by auto. f_equal.
    rewrite vecmag_squared, <- (vecmag_squared v). field. assumption.
  - rewrite cosine_similarity_value; [| rewrite length_map; reflexivity | assumption | rewrite Hopp; assumption].
    f_equal. rewrite Hopp, inner_opp_r, <- (vecmag_squared v). field. assumption.
Qed.

Lemma cosine_similarity_self_witness :
  value (cosine_similarity [3; 0; 4] [3; 0; 4]) = Some 1 /\
  value (cosine_similarity [3; 0; 4] (map Ropp [3; 0; 4])) = Some (-1).
Proof.
  apply (cosine_similarity_self [3; 0; 4]).
  unfold vecmag, np_linalg_norm. cbn [inner].
  replace (3 * 3 + (0 * 0 + (4 * 4 + 0))) with (5 * 5) by ring.
  rewrite sqrt_square; lra.
Defined.

(** X6.  For two nonzero vectors of one length the cosine similarity
    is computed, lies between -1 and 1, and does not depend on the
    order of the arguments. *)
Theorem cosine_similarity_bounds (a b : vec) :
  length a = length b -> vecmag a <> 0 -> vecmag b <> 0 ->
  exists c, value (cosine_similarity a b) = Some c /\
            value (cosine_similarity b a) = Some c /\
            -1 <= c <= 1.
Proof.
  intros Hlen Ha Hb.
  exists (inner a b / (vecmag a * vecmag b)).
  split; [apply cosine_similarity_value; assumption|].
  split.
  - rewrite cosine_similarity_value by auto.
    rewrite inner_comm, (Rmult_comm (vecmag b)). reflexivity.
  - pose proof (inner_abs_le a b Hlen) as Hcs.
    pose proof (vecmag_pos a Ha) as Hpa. pose proof (vecmag_pos b Hb) as Hpb.
    assert (Hp : 0 < vecmag a * vecmag b) by (apply Rmult_lt_0_compat; assumption).
    assert (Hb2 : - (vecmag a * vecmag b) <= inner a b <= vecmag a * vecmag b).
    { unfold Rabs in Hcs. destruct (Rcase_abs (inner a b)); lra. }
    destruct Hb2 as [Hlo Hhi].
    split.
    + apply (Rmult_le_reg_r (vecmag a * vecmag b)); [assumption|].
      unfold Rdiv. rewrite Rmult_assoc, Rinv_l by lra. lra.
    + apply (Rmult_le_reg_r (vecmag a * vecmag b)); [assumption|].
      unfold Rdiv. rewrite Rmult_assoc, Rinv_l by lra. lra.
Qed.

Lemma cosine_similarity_bounds_witness :
  exists c, value (cosine_similarity [1; 0; 0] [0; 1; 0]) = Some c /\
            value (cosine_similarity [0; 1; 0] [1; 0; 0]) = Some c /\
            -1 <= c <= 1.
Proof.
  apply (cosine_similarity_bounds [1; 0; 0] [0; 1; 0]).
  - reflexivity.
  - unfold vecmag, np_linalg_norm. cbn [inner].
    replace (1 * 1 + (0 * 0 + (0 * 0 + 0))) with 1 by ring.
    rewrite sqrt_1. lra.
  - unfold vecmag, np_linalg_norm. cbn [inner].
    replace (0 * 0 + (1 * 1 + (0 * 0 + 0))) with 1 by ring.
    rewrite sqrt_1. lra.
Defined.

(** X7.  The cosine similarity has no real result exactly when one
    argument is a zero vector with at least one component, or the
    lengths differ; on two empty arrays it is 0. *)
Theorem cosine_similarity_undefined (a b : vec) :
  value (cosine_similarity a b) = None <->
  (a <> [] /\ vecmag a = 0) \/ (b <> [] /\ vecmag b = 0) \/ length a <> length b.
Proof.
  unfold cosine_similarity. fold (vecmag a). fold (vecmag b).
  destruct (Req_dec_T (vecmag a) 0) as [Ha | Ha];
    destruct (Req_dec_T (vecmag b) 0) as [Hb | Hb].
  - destruct a as [|x a]; destruct b as [|y b]; rewrite ?Ha, ?Hb;
      rewrite ?vecmag_nil, ?np_divide_each_by_zero; cbn;
      intuition (try congruence; try discriminate).
  - destruct a as [|x a].
    + cbn [np_divide_each bind ret]. rewrite np_divide_each_ok by assumption.
      cbn [bind]. unfold np_dot. rewrite length_map.
      destruct b as [|y b]; [rewrite vecmag_nil in Hb; contradiction|].
      cbn. intuition (try congruence; try discriminate).
    + rewrite Ha, np_divide_each_by_zero. cbn.
      intuition (try congruence; try discriminate).
  - rewrite np_divide_each_ok by assumption. cbn [bind].
    destruct b as [|y b].
    + cbn [np_divide_each bind ret]. unfold np_dot. rewrite length_map.
      destruct a as [|x a]; [rewrite vecmag_nil in Ha; contradiction|].
      cbn. intuition (try congruence; try discriminate).
    + rewrite Hb, np_divide_each_by_zero. cbn.
      intuition (try congruence; try discriminate).
  - rewrite !np_divide_each_ok by assumption. cbn [bind].
    unfold np_dot. rewrite !length_map.
    destruct (Nat.eq_dec (length a) (length b)) as [E | E]; cbn;
      intuition (try congruence; try discriminate).
Qed.

(** ** Mean *)

Lemma INR_length_pos (x : R) (v : vec) : 0 < INR (length (x :: v)).
Proof. apply lt_0_INR. simpl. apply Nat.lt_0_succ. Qed.

Lemma sum_bounds (lo hi : R) (v : vec) :
  (forall x, In x v -> lo <= x <= hi) ->
  lo * INR (length v) <= fold_right Rplus 0 v <= hi * INR (length v).
Proof.
  induction v as [|x v IH]; intros H.
  - simpl. lra.
  - change (length (x :: v)) with (S (length v)). rewrite S_INR.
    cbn [fold_right].
    assert (Hx : lo <= x <= hi) by (apply H; left; reflexivity).
    assert (Hv : forall y, In y v -> lo <= y <= hi) by (intros y Hy; apply H; right; assumption).
    specialize (IH Hv). lra.
Qed.

(** X8.  The mean of a non-empty array is computed and lies between
    any lower and upper bound of its components. *)
Theorem vecmean_bounds (lo hi : R) (v : vec) :
  v <> [] -> (forall x, In x v -> lo <= x <= hi) ->
  exists m, value (vecmean v) = Some m /\ lo <= m <= hi.
Proof.
  intros Hne Hb. destruct v as [|x v]; [contradiction|].
  pose proof (INR_length_pos x v) as Hn.
  pose proof (sum_bounds lo hi (x :: v) Hb) as [Hlo Hhi].
  unfold vecmean, np_mean. rewrite py_div_ok by lra.
  eexists. split; [reflexivity|].
  split.
  - apply (Rmult_le_reg_r (INR (length (x :: v)))); [assumption|].
    unfold Rdiv. rewrite Rmult_assoc, Rinv_l by lra. lra.
  - apply (Rmult_le_reg_r (INR (length (x :: v)))); [assumption|].
    unfold Rdiv. rewrite Rmult_assoc, Rinv_l by lra. lra.
Qed.

Lemma vecmean_bounds_witness :
  exists m, value (vecmean [1; 2; 6]) = Some m /\ 1 <= m <= 6.
Proof.
  apply (vecmean_bounds 1 6 [1; 2; 6]).
  - discriminate.
  - intros x [H | [H | [H | []]]]; subst x; lra.
Defined.

(** X9.  The mean has no real result exactly on the empty array (where
    NumPy answers [nan]); on any other array the mean times the number
    of components is their sum. *)
Theorem vecmean_defined (v : vec) :
  (value (vecmean v) = None <-> v = []) /\
  (forall m, value (vecmean v) = Some m ->
             m * INR (length v) = fold_right Rplus 0 v).
Proof.
  unfold vecmean, np_mean. destruct v as [|x v].
  - cbn [length INR fold_right]. rewrite py_div_zero. cbn.
    split; [split; reflexivity | discriminate].
  - pose proof (INR_length_pos x v) as Hn.
    rewrite py_div_ok by lra. cbn [value]. split.
    + split; discriminate.
    + intros m [= <-]. unfold Rdiv. rewrite Rmult_assoc, Rinv_l by lra. cbn [fold_right]. lra.
Qed.

(** ** Projections *)

Lemma vector_projection_value (v d : vec) (ms : option R) :
  length v = length d -> vecmag d <> 0 ->
  ms = None \/ ms = Some (squared_vecmag d) ->
  value (vector_projection v d ms)
  = Some (np_multiply (inner v d / inner d d) d).
Proof.
  intros Hlen Hmag Hms.
  assert (Hsq : vecmag d * vecmag d <> 0) by nra.
  assert (E : value (dot <- np_dot v d ;; c <- np_divide dot (vecmag d * vecmag d) ;;
                     ret (np_multiply c d))
              = Some (np_multiply (inner v d / inner d d) d)).
  { unfold np_dot. destruct (Nat.eq_dec (length v) (length d)); [| contradiction].
    unfold np_divide. cbn [bind ret]. rewrite py_div_ok by assumption.
    cbn. rewrite vecmag_squared. reflexivity. }
  unfold vector_projection. destruct Hms as [-> | ->].
  - rewrite !Reqb_false by assumption. exact E.
  - unfold squared_vecmag. fold (vecmag d).
    rewrite Reqb_false by assumption. exact E.
Qed.

(** X10.  Supplying the squared magnitude of the target as the third
    argument changes nothing: the result, its failure and its
    divisions are those of the two-argument call. *)
Theorem vector_projection_precomputed (v d : vec) :
  vector_projection v d (Some (squared_vecmag d)) = vector_projection v d None.
Proof.
  unfold vector_projection, squared_vecmag. fold (vecmag d).
  destruct (Reqb_spec (vecmag d) 0) as [Hz | Hnz].
  - rewrite Hz. rewrite Reqb_true by ring. reflexivity.
  - reflexivity.
Qed.

(** X11.  Projecting a projection again onto the same target returns
    it unchanged. *)
Theorem vector_projection_idempotent (v d : vec) :
  length v = length d -> vecmag d <> 0 ->
  exists p, value (vector_projection v d None) = Some p /\
            value (vector_projection p d None) = Some p.
Proof.
  intros Hlen Hmag.
  assert (Hdd : inner d d <> 0) by (rewrite <- vecmag_squared; nra).
  exists (np_multiply (inner v d / inner d d) d).
  split; [apply vector_projection_value; auto|].
  rewrite vector_projection_value; auto.
  - f_equal. f_equal. unfold np_multiply at 1. rewrite inner_map_mult_l.
    field. assumption.
  - unfold np_multiply. rewrite length_map. reflexivity.
Qed.

Lemma vector_projection_idempotent_witness :
  exists p, value (vector_projection [1; 2; 3] [1; 0; 0] None) = Some p /\
            value (vector_projection p [1; 0; 0] None) = Some p.
Proof.
  apply (vector_projection_idempotent [1; 2; 3] [1; 0; 0]).
  - reflexivity.
  - unfold vecmag, np_linalg_norm. cbn [inner].
    replace (1 * 1 + (0 * 0 + (0 * 0 + 0))) with 1 by ring.
    rewrite sqrt_1. lra.
Defined.

Lemma scalar_projection_value (v d : vec) :
  length v = length d -> vecmag d <> 0 ->
  value (scalar_projection v d) = Some (inner v d / vecmag d).
Proof.
  intros Hlen Hmag. unfold scalar_projection.
  rewrite Reqb_false by assumption. unfold np_dot.
  destruct (Nat.eq_dec (length v) (length d)); [| contradiction].
  cbn [bind ret]. rewrite py_div_ok by assumption. reflexivity.
Qed.

(** X12.  The vector projection is the scalar projection times the
    unit vector of the target. *)
Theorem vector_projection_decomposition (v d : vec) :
  length v = length d -> vecmag d <> 0 ->
  exists s u,
    value (scalar_projection v d) = Some s /\
    value (unitvec d) = Some u /\
    value (vector_projection v d None) = Some (np_multiply s u).
Proof.
  intros Hlen Hmag.
  exists (inner v d / vecmag d), (map (fun x => x / vecmag d) d).
  split; [apply scalar_projection_value; assumption|].
  split; [unfold unitvec; rewrite np_divide_each_ok by assumption; reflexivity|].
  rewrite vector_projection_value by auto. f_equal.
  unfold np_multiply. rewrite map_map. apply map_ext. intros x.
  rewrite <- vecmag_squared. field. assumption.
Qed.

Lemma vector_projection_decomposition_witness :
  exists s u,
    value (scalar_projection [1; 2; 3] [0; 3; 4]) = Some s /\
    value (unitvec [0; 3; 4]) = Some u /\
    value (vector_projection [1; 2; 3] [0; 3; 4] None) = Some (np_multiply s u).
Proof.
  apply (vector_projection_decomposition [1; 2; 3] [0; 3; 4]).
  - reflexivity.
  - unfold vecmag, np_linalg_norm. cbn [inner].
    replace (0 * 0 + (3 * 3 + (4 * 4 + 0))) with (5 * 5) by ring.
    rewrite sqrt_square; lra.
Defined.

(** X13.  The scalar projection is never longer than the projected
    vector: its absolute value is at most the magnitude of [v]. *)
Theorem scalar_projection_bound (v d : vec) :
  length v = length d -> vecmag d <> 0 ->
  exists s, value (scalar_projection v d) = Some s /\ Rabs s <= vecmag v.
Proof.
  intros Hlen Hmag. exists (inner v d / vecmag d).
  split; [apply scalar_projection_value; assumption|].
  pose proof (vecmag_pos d Hmag) as Hp.
  pose proof (inner_abs_le v d Hlen) as Hcs.
  unfold Rdiv. rewrite Rabs_mult, (Rabs_pos_eq (/ vecmag d)).
  - apply (Rmult_le_reg_r (vecmag d)); [assumption|].
    rewrite Rmult_assoc, Rinv_l by lra. lra.
  - left. apply Rinv_0_lt_compat. assumption.
Qed.

Lemma scalar_projection_bound_witness :
  exists s, value (scalar_projection [1; 2; 3] [0; 3; 4]) = Some s /\
            Rabs s <= vecmag [1; 2; 3].
Proof.
  apply (scalar_projection_bound [1; 2; 3] [0; 3; 4]).
  - reflexivity.
  - unfold vecmag, np_linalg_norm. cbn [inner].
    replace (0 * 0 + (3 * 3 + (4 * 4 + 0))) with (5 * 5) by ring.
    rewrite sqrt_square; lra.
Defined.

Lemma inner_map_mult_r (c : R) (a b : vec) :
  inner a (map (Rmult c) b) = c * inner a b.
Proof. rewrite inner_comm, inner_map_mult_l, inner_comm. reflexivity. Qed.

(** X14.  Pythagoras: the squared magnitude of a vector is the sum of
    the squared magnitudes of its projection and of the residual. *)
Theorem vector_projection_pythagoras (v d : vec) :
  length v = length d -> vecmag d <> 0 ->
  exists p r,
    value (vector_projection v d None) = Some p /\
    value (get_dist v p) = Some r /\
    squared_vecmag v = squared_vecmag p + squared_vecmag r.
Proof.
  intros Hlen Hmag.
  assert (Hdd : inner d d <> 0) by (rewrite <- vecmag_squared; nra).
  exists (np_multiply (inner v d / inner d d) d).
  exists (zip_with Rminus v (np_multiply (inner v d / inner d d) d)).
  split; [apply vector_projection_value; auto|].
  split.
  - unfold get_dist, np_subtract, np_multiply. rewrite length_map.
    destruct (Nat.eq_dec (length v) (length d)); [reflexivity | contradiction].
  - rewrite !squared_vecmag_inner, inner_residual_self by assumption.
    unfold np_multiply at 1 2.
    rewrite inner_map_mult_l, inner_map_mult_r.
    field. assumption.
Qed.

Lemma vector_projection_pythagoras_witness :
  exists p r,
    value (vector_projection [1; 2; 3] [1; 0; 0] None) = Some p /\
    value (get_dist [1; 2; 3] p) = Some r /\
    squared_vecmag [1; 2; 3] = squared_vecmag p + squared_vecmag r.
Proof.
  apply (vector_projection_pythagoras [1; 2; 3] [1; 0; 0]).
  - reflexivity.
  - unfold vecmag, np_linalg_norm. cbn [inner].
    replace (1 * 1 + (0 * 0 + (0 * 0 + 0))) with 1 by ring.
    rewrite sqrt_1. lra.
Defined.

(** ** Difference *)

Lemma zip_with_minus_swap (x y : vec) :
  zip_with Rminus y x = map Ropp (zip_with Rminus x y).
Proof.
  revert y. induction x as [|a x IH]; intros [|b y]; simpl; try reflexivity.
  rewrite IH. f_equal. ring.
Qed.

(** X15.  Swapping the arguments of [get_dist] negates every component
    of the result, and fails when the original call fails; this holds
    with broadcasting too. *)
Theorem get_dist_swap (x y : vec) :
  value (get_dist y x) = option_map (map Ropp) (value (get_dist x y)).
Proof.
  unfold get_dist, np_subtract.
  destruct (Nat.eq_dec (length y) (length x)) as [E | E];
    destruct (Nat.eq_dec (length x) (length y)) as [E' | E']; try congruence.
  - cbn. rewrite zip_with_minus_swap. reflexivity.
  - destruct x as [|a [|a' x]]; destruct y as [|b [|b' y]]; cbn in *;
      try congruence; try reflexivity;
      rewrite ?map_map; f_equal; repeat (f_equal; [ring|]);
      apply map_ext; intros; ring.
Qed.

(** X16.  [get_dist] fails exactly when the lengths differ and neither
    is 1; otherwise the result has the common length, or the length of
    the argument that is not broadcast. *)
Theorem get_dist_shape (x y : vec) :
  (value (get_dist x y) = None <->
   length x <> length y /\ length x <> 1%nat /\ length y <> 1%nat) /\
  (forall r, value (get_dist x y) = Some r ->
             length r = if Nat.eqb (length x) 1 then length y else length x).
Proof.
  unfold get_dist, np_subtract.
  destruct (Nat.eq_dec (length x) (length y)) as [E | E].
  - cbn [ret value]. split.
    + split; [discriminate | intros [H _]; contradiction].
    + intros r [= <-]. rewrite zip_with_length by assumption.
      destruct (Nat.eqb_spec (length x) 1); congruence.
  - destruct x as [|a [|a' x]]; destruct y as [|b [|b' y]]; cbn in *;
      try congruence; split.
    all: try (split; [discriminate | intros (_ & H1 & H2); congruence]).
    all: try (split; [intros _; repeat split; (discriminate || assumption) | reflexivity]).
    all: try discriminate.
    all: intros r [= <-]; cbn; rewrite ?length_map; reflexivity.
Qed.

(** * Further properties of the orientation kernel *)

(** ** Rotation matrix to quaternion and back *)

(** On a rotation matrix the products of the components of a case's
    quaternion are a quarter of the shared numerators. *)
Lemma shepperd_products (d e f : dominant) (m : mat3) :
  is_rotation m -> 0 < radicand d m ->
  qcomp e (shepperd d m) * qcomp f (shepperd d m) = cross e f m / 4.
Proof.
  intros Hrot Hd. rewrite shepperd_cross by assumption.
  pose proof (sqrt_lt_R0 _ Hd) as Ha.
  pose proof (sqrt_sqrt _ (Rlt_le _ _ Hd)) as Haa.
  pose proof (cross_identity d e f m Hrot) as Hk.
  set (a := sqrt (radicand d m)) in *.
  assert (E : cross d e m * / (2 * a) * (cross d f m * / (2 * a))
              = cross d e m * cross d f m / (4 * (a * a))) by (field; lra).
  destruct e, f; cbn [qcomp qw qx qy qz]; rewrite E, Hk, Haa; field; lra.
Qed.

Lemma shepperd_unit (d : dominant) (m : mat3) :
  is_rotation m -> 0 < radicand d m ->
  qdot (shepperd d m) (shepperd d m) = 1.
Proof.
  intros Hrot Hd. unfold qdot.
  change (qw (shepperd d m)) with (qcomp DomW (shepperd d m)).
  change (qx (shepperd d m)) with (qcomp DomX (shepperd d m)).
  change (qy (shepperd d m)) with (qcomp DomY (shepperd d m)).
  change (qz (shepperd d m)) with (qcomp DomZ (shepperd d m)).
  rewrite !shepperd_products by assumption. rewrite !cross_diag.
  pose proof (radicand_sum m). lra.
Qed.

Lemma shepperd_matrix (d : dominant) (m : mat3) :
  is_rotation m -> 0 < radicand d m ->
  scaled_matrix (shepperd d m) = m.
Proof.
  intros Hrot Hd.
  pose proof (shepperd_unit d m Hrot Hd) as Hu.
  pose proof (fun e f => shepperd_products d e f m Hrot Hd) as Hp.
  pose proof (Hp DomW DomX) as Hwx. pose proof (Hp DomW DomY) as Hwy.
  pose proof (Hp DomW DomZ) as Hwz. pose proof (Hp DomX DomY) as Hxy.
  pose proof (Hp DomX DomZ) as Hxz. pose proof (Hp DomY DomZ) as Hyz.
  pose proof (Hp DomX DomX) as Hxx. pose proof (Hp DomY DomY) as Hyy.
  pose proof (Hp DomZ DomZ) as Hzz. clear Hp.
  unfold scaled_matrix. rewrite Hu.
  destruct (shepperd d m) as [w x y z].
  destruct m as [a00 a01 a02 a10 a11 a12 a20 a21 a22].
  cbn [qcomp qw qx qy qz cross radicand np_trace
       m00 m01 m02 m10 m11 m12 m20 m21 m22] in *.
  f_equal; lra.
Qed.

(** X17.  On every proper rotation matrix [rotation_to_quaternion]
    returns a unit quaternion. *)
Theorem rotation_to_quaternion_unit (m : mat3) :
  is_rotation m ->
  exists q, value (rotation_to_quaternion m) = Some q /\ qdot q q = 1.
Proof.
  intros Hrot. pose proof (rtq_radicand_ge_1 m) as H1.
  exists (qneg (shepperd (rtq_case m) m)).
  rewrite rtq_eval. cbn [value]. split; [reflexivity|].
  rewrite qdot_qneg. apply shepperd_unit; [assumption | lra].
Qed.

Lemma rotation_to_quaternion_unit_witness :
  exists q, value (rotation_to_quaternion half_turn_xy) = Some q /\ qdot q q = 1.
Proof.
  apply (rotation_to_quaternion_unit half_turn_xy).
  unfold half_turn_xy. rotation_by_ring.
Defined.

(** X18.  Round trip from the matrix: on every proper rotation matrix
    [m], converting to a quaternion with [rotation_to_quaternion] and
    back with [quat_to_rot_mtx] returns [m] itself. *)
Theorem rotation_to_quaternion_matrix_round_trip (m : mat3) :
  is_rotation m ->
  exists q,
    value (rotation_to_quaternion m) = Some q /\
    value (quat_to_rot_mtx q) = Some m.
Proof.
  intros Hrot. pose proof (rtq_radicand_ge_1 m) as H1.
  assert (U1 : qdot (shepperd (rtq_case m) m) (shepperd (rtq_case m) m) = 1)
    by (apply shepperd_unit; [assumption | lra]).
  exists (qneg (shepperd (rtq_case m) m)).
  rewrite rtq_eval. cbn [value]. split; [reflexivity|].
  rewrite quat_to_rot_mtx_nonzero by (rewrite qdot_qneg; lra).
  cbn [value]. rewrite scaled_matrix_qneg, shepperd_matrix; [reflexivity | assumption | lra].
Qed.

Lemma rotation_to_quaternion_matrix_round_trip_witness :
  exists q,
    value (rotation_to_quaternion half_turn_xy) = Some q /\
    value (quat_to_rot_mtx q) = Some half_turn_xy.
Proof.
  apply (rotation_to_quaternion_matrix_round_trip half_turn_xy).
  unfold half_turn_xy. rotation_by_ring.
Defined.

(** X19.  In exact real arithmetic neither conversion can fail, on any
    3x3 matrix, orthonormal or not: every radicand and every divisor
    they meet is strictly positive. *)
Theorem rot_to_quat_total (m : mat3) :
  (exists q, value (rotation_to_quaternion m) = Some q) /\
  (exists q, value (other_rot_to_quat m) = Some q) /\
  Forall (fun o => 0 < operand o) (audit (rotation_to_quaternion m)) /\
  Forall (fun o => 0 < operand o) (audit (other_rot_to_quat m)).
Proof.
  pose proof (rtq_radicand_ge_1 m) as H1. pose proof (orq_radicand_ge_1 m) as H2.
  pose proof (sqrt_pos_of_ge_1 _ H1) as S1. pose proof (sqrt_pos_of_ge_1 _ H2) as S2.
  rewrite rtq_eval, orq_eval. cbn [value audit].
  split; [eexists; reflexivity|]. split; [eexists; reflexivity|]. split.
  - repeat constructor; cbn [operand]; lra.
  - assert (Hh : 0 < 0.5 / sqrt (radicand (orq_case m) m)).
    { float_lits. apply Rdiv_lt_0_compat; lra. }
    destruct (orq_case m); cbn [orq_audit] in *;
      repeat constructor; cbn [operand]; float_lits; lra.
Qed.




(** ** Quaternion to rotation matrix: scaling *)

(** X21.  Rescaling a quaternion by any nonzero factor leaves its
    rotation matrix unchanged. *)
Theorem quat_to_rot_mtx_scale (k : R) (q : quat) :
  k <> 0 ->
  value (quat_to_rot_mtx (qscale k q)) = value (quat_to_rot_mtx q).
Proof.
  intros Hk.
  assert (Hd : qdot (qscale k q) (qscale k q) = k * k * qdot q q)
    by (unfold qdot, qscale; cbn [qw qx qy qz]; ring).
  destruct (Req_dec_T (qdot q q) 0) as [Hz | Hnz].
  - rewrite !quat_to_rot_mtx_zero; [reflexivity | assumption |].
    rewrite Hd, Hz. ring.
  - assert (Hkn : k * k * qdot q q <> 0).
    { apply Rmult_integral_contrapositive_currified; [| assumption].
      apply Rmult_integral_contrapositive_currified; assumption. }
    rewrite !quat_to_rot_mtx_nonzero by (rewrite ?Hd; assumption).
    cbn [value]. f_equal. unfold scaled_matrix. rewrite Hd.
    destruct q as [w x y z]. unfold qscale, qdot in *. cbn [qw qx qy qz] in *.
    f_equal; field; auto.
Qed.

Lemma quat_to_rot_mtx_scale_witness :
  value (quat_to_rot_mtx (qscale 5 (mkquat 0 (3 / 5) 0 (- (4 / 5)))))
  = value (quat_to_rot_mtx (mkquat 0 (3 / 5) 0 (- (4 / 5)))).
Proof.
  apply (quat_to_rot_mtx_scale 5 (mkquat 0 (3 / 5) 0 (- (4 / 5)))). lra.
Defined.

(** ** Euler angles *)

(** X22.  Whatever the three angles, [euler_to_rotation] builds a
    proper rotation: orthonormal columns and determinant 1. *)
Theorem euler_to_rotation_is_rotation (pyr : R * R * R) :
  orthonormal (euler_to_rotation pyr) /\ det3 (euler_to_rotation pyr) = 1.
Proof.
  destruct pyr as [[p y] r].
  pose proof (sin2_cos2 p) as Hp. pose proof (sin2_cos2 y) as Hy.
  pose proof (sin2_cos2 r) as Hr. unfold Rsqr in *.
  unfold orthonormal, det3, dot3, front, left, up, euler_to_rotation.
  cbn [m00 m01 m02 m10 m11 m12 m20 m21 m22].
  set (cp := cos p) in *. set (sp := sin p) in *.
  set (cy := cos y) in *. set (sy := sin y) in *.
  set (cr := cos r) in *. set (sr := sin r) in *.
  repeat split; nsatz.
Qed.

(** X23.  [quat_to_euler] cannot tell a quaternion from its opposite:
    both give the same three angles. *)
Theorem quat_to_euler_qneg (q : quat) :
  quat_to_euler (qneg q) = quat_to_euler q.
Proof.
  rewrite !quat_to_euler_unfold. unfold sinp, qneg. cbn [qw qx qy qz].
  replace (2 * (- qw q * - qy q - - qz q * - qx q))
    with (2 * (qw q * qy q - qz q * qx q)) by ring.
  replace (2 * (- qw q * - qz q + - qx q * - qy q))
    with (2 * (qw q * qz q + qx q * qy q)) by ring.
  replace (1 - 2 * (- qy q * - qy q + - qz q * - qz q))
    with (1 - 2 * (qy q * qy q + qz q * qz q)) by ring.
  replace (2 * (- qw q * - qx q + - qy q * - qz q))
    with (2 * (qw q * qx q + qy q * qz q)) by ring.
  replace (1 - 2 * (- qx q * - qx q + - qy q * - qy q))
    with (1 - 2 * (qx q * qx q + qy q * qy q)) by ring.
  reflexivity.
Qed.

(** [np_arctan2] answers in the interval from [- PI] (excluded) to
    [PI] (included). *)
Lemma np_arctan2_range (y x : R) : - PI < np_arctan2 y x <= PI.
Proof.
  pose proof PI_RGT_0 as Hpi. pose proof (atan_bound (y / x)) as Hb.
  unfold np_arctan2.
  destruct (Rgtb_spec x 0) as [Hx | Hx]; [lra|].
  destruct (Rgtb_spec 0 x) as [Hx' | Hx'].
  - destruct (Rgeb_spec y 0) as [Hy | Hy].
    + assert (Hq : y / x <= 0).
      { unfold Rdiv. assert (/ x < 0) by (apply Rinv_lt_0_compat; lra). nra. }
      assert (atan (y / x) <= 0).
      { destruct Hq as [Hlt | Heq].
        - left. rewrite <- atan_0. apply atan_increasing. assumption.
        - rewrite Heq, atan_0. lra. }
      lra.
    + assert (Hq : 0 < y / x).
      { unfold Rdiv. assert (/ x < 0) by (apply Rinv_lt_0_compat; lra). nra. }
      assert (0 < atan (y / x)).
      { rewrite <- atan_0. apply atan_increasing. assumption. }
      lra.
  - destruct (Rgtb_spec y 0); [lra|]. destruct (Rgtb_spec 0 y); lra.
Qed.

(** X24.  The angles [quat_to_euler] returns are in range: the first
    (the negated pitch) between [- PI / 2] and [PI / 2], the second
    (the yaw) in the interval from [- PI] to [PI] closed on the right,
    the third (the negated roll) in that interval closed on the
    left. *)
Theorem quat_to_euler_range (q : quat) :
  let '(a, b, c) := quat_to_euler q in
  - (PI / 2) <= a <= PI / 2 /\ - PI < b <= PI /\ - PI <= c < PI.
Proof.
  rewrite quat_to_euler_unfold.
  pose proof PI_RGT_0 as Hpi.
  split; [| split].
  - destruct (Rabs (sinp q) >? 1); [lra|].
    pose proof (asin_bound (sinp q)). unfold np_arcsin. lra.
  - apply np_arctan2_range.
  - match goal with |- _ <= - np_arctan2 ?u ?v < _ => pose proof (np_arctan2_range u v) end.
    lra.
Qed.

(** ** From a quaternion to Euler angles and on to the matrix *)

Lemma sqrt_ratio_pos (x y : R) :
  0 < x -> sqrt (1 + (y / x)²) = sqrt (x * x + y * y) / x.
Proof.
  intros Hx.
  replace (1 + (y / x)²) with ((x * x + y * y) / (x * x))
    by (unfold Rsqr; field; lra).
  rewrite sqrt_div_alt by nra. rewrite sqrt_square by lra. reflexivity.
Qed.

Lemma hyp_pos (x y : R) : x <> 0 \/ y <> 0 -> 0 < sqrt (x * x + y * y).
Proof. intros H. apply sqrt_lt_R0. destruct H; nra. Qed.

(** The point [(x, y)] is at the angle [np_arctan2 y x]: the cosine
    and the sine of that angle are [x] and [y] over the distance to
    the origin. *)
Lemma np_arctan2_cos_sin (y x : R) :
  x <> 0 \/ y <> 0 ->
  cos (np_arctan2 y x) = x / sqrt (x * x + y * y) /\
  sin (np_arctan2 y x) = y / sqrt (x * x + y * y).
Proof.
  intros Hne. pose proof (hyp_pos x y Hne) as Hr.
  unfold np_arctan2.
  destruct (Rgtb_spec x 0) as [Hx | Hx].
  - rewrite cos_atan, sin_atan, sqrt_ratio_pos by lra.
    split; field; lra.
  - destruct (Rgtb_spec 0 x) as [Hx' | Hx'].
    + assert (Hs : sqrt (1 + (y / x)²) = sqrt (x * x + y * y) / - x).
      { replace (y / x) with (- y / - x) by (field; lra).
        rewrite sqrt_ratio_pos by lra. f_equal. f_equal. ring. }
      destruct (Rgeb_spec y 0) as [Hy | Hy].
      * rewrite neg_cos, neg_sin, cos_atan, sin_atan, Hs.
        split; field; lra.
      * unfold Rminus. rewrite cos_plus, sin_plus, cos_neg, sin_neg, cos_PI, sin_PI.
        rewrite cos_atan, sin_atan, Hs. split; field; lra.
    + assert (x = 0) by lra. subst x.
      assert (Hy0 : y <> 0) by (destruct Hne; [lra | assumption]).
      replace (0 * 0 + y * y) with (y * y) in * by ring.
      destruct (Rgtb_spec y 0) as [Hy | Hy].
      * rewrite cos_PI2, sin_PI2, sqrt_square by lra. split; field; lra.
      * destruct (Rgtb_spec 0 y) as [Hy' | Hy']; [| lra].
        rewrite cos_neg, sin_neg, cos_PI2, sin_PI2.
        replace (y * y) with (- y * - y) by ring.
        rewrite sqrt_square by lra. split; field; lra.
Qed.

(** X25.  Away from gimbal lock the Euler angles of a unit quaternion
    describe the same rotation: for a unit quaternion whose [sinp] is
    strictly between -1 and 1, [euler_to_rotation] of [quat_to_euler]
    is exactly the matrix of [quat_to_rot_mtx]. *)
Theorem quat_euler_rotation_round_trip (q : quat) :
  qnorm q = 1 -> -1 < sinp q < 1 ->
  value (quat_to_rot_mtx q) = Some (euler_to_rotation (quat_to_euler q)).
Proof.
  intros Hq Hs. apply qnorm_unit in Hq.
  rewrite quat_to_rot_mtx_nonzero by lra. cbn [value]. f_equal.
  rewrite quat_to_euler_unfold.
  rewrite Rgtb_false by (apply Rabs_le; lra).
  unfold euler_to_rotation, np_arcsin.
  rewrite !cos_neg, !sin_neg.
  assert (Hcp : cos (asin (sinp q)) = sqrt (1 - (sinp q)²))
    by (apply cos_asin; lra).
  assert (Hsp : sin (asin (sinp q)) = sinp q) by (apply sin_asin; lra).
  assert (Hc2 : 0 < 1 - (sinp q)²) by (unfold Rsqr; nra).
  pose proof (sqrt_lt_R0 _ Hc2) as Hcpos.
  pose proof (sqrt_sqrt _ (Rlt_le _ _ Hc2)) as Hcc.
  set (sy := 2 * (qw q * qz q + qx q * qy q)) in *.
  set (cy := 1 - 2 * (qy q * qy q + qz q * qz q)) in *.
  set (sr := 2 * (qw q * qx q + qy q * qz q)) in *.
  set (cr := 1 - 2 * (qx q * qx q + qy q * qy q)) in *.
  assert (Hy : cy * cy + sy * sy = 1 - (sinp q)²).
  { subst sy cy. unfold sinp, Rsqr, qdot in *. nsatz. }
  assert (Hr : cr * cr + sr * sr = 1 - (sinp q)²).
  { subst sr cr. unfold sinp, Rsqr, qdot in *. nsatz. }
  assert (Hny : cy <> 0 \/ sy <> 0).
  { destruct (Req_dec_T cy 0) as [E | E]; [right | left; assumption].
    intros E'. rewrite E, E' in Hy. lra. }
  assert (Hnr : cr <> 0 \/ sr <> 0).
  { destruct (Req_dec_T cr 0) as [E | E]; [right | left; assumption].
    intros E'. rewrite E, E' in Hr. lra. }
  destruct (np_arctan2_cos_sin sy cy Hny) as [Hcy Hsy].
  destruct (np_arctan2_cos_sin sr cr Hnr) as [Hcr Hsr].
  rewrite Hcy, Hsy, Hcr, Hsr, Hy, Hr, Hcp, Hsp.
  set (c := sqrt (1 - (sinp q)²)) in *.
  unfold scaled_matrix. rewrite Hq.
  replace (1 / 1) with 1 by field.
  assert (Hcc' : c * c = 1 - sinp q * sinp q) by (rewrite Hcc; reflexivity).
  clear Hcy Hsy Hcr Hsr Hcp Hsp Hny Hnr Hcc Hy Hr Hc2.
  assert (HK : c * / c = 1) by (apply Rinv_r; lra).
  unfold Rdiv. set (K := / c) in *. clearbody K. clearbody c. clear Hcpos Hs.
  destruct q as [w x y z].
  subst sy cy sr cr. unfold sinp, qdot, Rsqr in *. cbn [qw qx qy qz] in *.
  f_equal; nsatz.
Qed.

Lemma quat_euler_rotation_round_trip_witness :
  value (quat_to_rot_mtx (mkquat 0 (3 / 5) 0 (- (4 / 5))))
  = Some (euler_to_rotation (quat_to_euler (mkquat 0 (3 / 5) 0 (- (4 / 5))))).
Proof.
  apply (quat_euler_rotation_round_trip (mkquat 0 (3 / 5) 0 (- (4 / 5)))).
  - unfold qnorm, qdot. cbn [qw qx qy qz].
    replace (0 * 0 + 3 / 5 * (3 / 5) + 0 * 0 + - (4 / 5) * - (4 / 5)) with 1 by field.
    apply sqrt_1.
  - unfold sinp. cbn [qw qx qy qz]. lra.
Defined.

(** X26.  At gimbal lock the yaw and the roll are lost: for a unit
    quaternion whose [sinp] is 1 or -1, [quat_to_euler] returns the
    pole for the pitch and 0 for both other angles. *)
Theorem quat_to_euler_gimbal_lock (q : quat) :
  qnorm q = 1 -> sinp q = 1 \/ sinp q = -1 ->
  quat_to_euler q = (- (sinp q * (PI / 2)), 0, - 0).
Proof.
  intros Hq Hs. apply qnorm_unit in Hq.
  rewrite quat_to_euler_unfold.
  set (sy := 2 * (qw q * qz q + qx q * qy q)).
  set (cy := 1 - 2 * (qy q * qy q + qz q * qz q)).
  set (sr := 2 * (qw q * qx q + qy q * qz q)).
  set (cr := 1 - 2 * (qx q * qx q + qy q * qy q)).
  assert (Hy : cy * cy + sy * sy = 1 - sinp q * sinp q).
  { subst sy cy. unfold sinp, qdot in *. nsatz. }
  assert (Hr : cr * cr + sr * sr = 1 - sinp q * sinp q).
  { subst sr cr. unfold sinp, qdot in *. nsatz. }
  assert (Hz : 1 - sinp q * sinp q = 0) by (destruct Hs as [-> | ->]; ring).
  rewrite Hz in Hy, Hr.
  assert (Ecy : cy = 0) by nra. assert (Esy : sy = 0) by nra.
  assert (Ecr : cr = 0) by nra. assert (Esr : sr = 0) by nra.
  assert (Hat : np_arctan2 0 0 = 0).
  { unfold np_arctan2. rewrite !Rgtb_false by lra. reflexivity. }
  rewrite Ecy, Esy, Ecr, Esr, Hat. rewrite Rgtb_false by (destruct Hs as [-> | ->]; [rewrite Rabs_pos_eq | rewrite Rabs_left]; lra).
  unfold np_arcsin. f_equal. f_equal.
  destruct Hs as [-> | ->].
  - rewrite asin_1. ring.
  - replace (-1) with (- (1)) by ring. rewrite asin_opp, asin_1. ring.
Qed.

Lemma quat_to_euler_gimbal_lock_witness :
  quat_to_euler (mkquat (sqrt 2 / 2) 0 (sqrt 2 / 2) 0)
  = (- (sinp (mkquat (sqrt 2 / 2) 0 (sqrt 2 / 2) 0) * (PI / 2)), 0, - 0).
Proof.
  assert (H2 : sqrt 2 * sqrt 2 = 2) by (apply sqrt_sqrt; lra).
  apply (quat_to_euler_gimbal_lock (mkquat (sqrt 2 / 2) 0 (sqrt 2 / 2) 0)).
  - unfold qnorm, qdot. cbn [qw qx qy qz].
    replace (sqrt 2 / 2 * (sqrt 2 / 2) + 0 * 0 + sqrt 2 / 2 * (sqrt 2 / 2) + 0 * 0)
      with (sqrt 2 * sqrt 2 / 2) by field.
    rewrite H2. replace (2 / 2) with 1 by field. apply sqrt_1.
  - left. unfold sinp. cbn [qw qx qy qz].
    replace (2 * (sqrt 2 / 2 * (sqrt 2 / 2) - 0 * 0)) with (sqrt 2 * sqrt 2 / 2) by field.
    rewrite H2. field.
Defined.

(** * Random vectors *)

Lemma normalized_magnitude (v : vec) :
  vecmag v <> 0 -> vecmag (map (fun x => x / vecmag v) v) = 1.
Proof.
  intros H. unfold vecmag at 1, np_linalg_norm.
  rewrite inner_map_div by assumption. rewrite <- vecmag_squared.
  replace (vecmag v * vecmag v / (vecmag v * vecmag v)) with 1 by (field; assumption).
  apply sqrt_1.
Qed.

Lemma vecmag_np_scale (v : vec) (c : R) :
  0 <= c -> vecmag (np_scale v c) = c * vecmag v.
Proof.
  intros Hc. unfold vecmag, np_linalg_norm, np_scale.
  assert (E : inner (map (fun x => x * c) v) (map (fun x => x * c) v)
              = (c * c) * inner v v).
  { induction v as [|x v IH]; simpl; [ring | rewrite IH; ring]. }
  rewrite E, sqrt_mult_alt by nra. rewrite sqrt_square by assumption. reflexivity.
Qed.

Lemma centred_draws_magnitude (g : rng) :
  vecmag (centred_draws g) = 0 <->
  draws g (cursor g) = 0.5 /\ draws g (S (cursor g)) = 0.5 /\
  draws g (S (S (cursor g))) = 0.5.
Proof.
  unfold centred_draws, np_shift. cbn [map].
  set (a := draws g (cursor g) - 0.5). set (b := draws g (S (cursor g)) - 0.5).
  set (c := draws g (S (S (cursor g))) - 0.5).
  assert (Hi : inner [a; b; c] [a; b; c] = a * a + b * b + c * c) by (simpl; ring).
  split.
  - intros H. pose proof (vecmag_squared [a; b; c]) as Hs. rewrite H, Hi in Hs.
    assert (a = 0) by nra. assert (b = 0) by nra. assert (c = 0) by nra.
    subst a b c. repeat split; lra.
  - intros (Ha & Hb & Hc). unfold vecmag, np_linalg_norm. rewrite Hi.
    replace (a * a + b * b + c * c) with 0 by (subst a b c; rewrite Ha, Hb, Hc; ring).
    apply sqrt_0.
Qed.

Lemma centred_draws_by_zero (g : rng) :
  np_divide_each (centred_draws g) 0 = raise.
Proof.
  unfold centred_draws, np_shift. cbn [map]. apply np_divide_each_by_zero.
Qed.

Lemma rand_uvec3_unfold (g : rng) :
  rand_uvec3 g =
    (np_divide_each (centred_draws g) (vecmag (centred_draws g)),
     mkrng (draws g) (S (S (S (cursor g))))).
Proof. reflexivity. Qed.

(** X27.  [rand_uvec3] draws exactly three floats.  Its result is a
    vector of three components and magnitude 1, unless the three
    floats are all 0.5, the only draw for which it has no real
    result. *)
Theorem rand_uvec3_unit (g : rng) :
  (value (fst (rand_uvec3 g)) = None <->
   draws g (cursor g) = 0.5 /\ draws g (S (cursor g)) = 0.5 /\
   draws g (S (S (cursor g))) = 0.5) /\
  (forall u, value (fst (rand_uvec3 g)) = Some u ->
             length u = 3%nat /\ vecmag u = 1) /\
  cursor (snd (rand_uvec3 g)) = (3 + cursor g)%nat /\
  draws (snd (rand_uvec3 g)) = draws g.
Proof.
  rewrite rand_uvec3_unfold. cbn [fst snd cursor draws].
  rewrite <- centred_draws_magnitude.
  destruct (Req_dec_T (vecmag (centred_draws g)) 0) as [Hz | Hnz].
  - rewrite Hz, centred_draws_by_zero. cbn [value].
    repeat split; try reflexivity; discriminate.
  - rewrite np_divide_each_ok by assumption. cbn [value].
    repeat split; try discriminate; try contradiction.
    + assert (E : map (fun x => x / vecmag (centred_draws g)) (centred_draws g) = u)
        by congruence.
      subst u. reflexivity.
    + assert (E : map (fun x => x / vecmag (centred_draws g)) (centred_draws g) = u)
        by congruence.
      subst u. apply normalized_magnitude. assumption.
Qed.

Lemma rand_vec3_unfold (max_norm : R) (g : rng) :
  rand_vec3 max_norm g =
    (u <- np_divide_each (centred_draws g) (vecmag (centred_draws g)) ;;
     ret (np_scale u (draws g (S (S (S (cursor g)))) * max_norm)),
     mkrng (draws g) (S (S (S (S (cursor g)))))).
Proof. reflexivity. Qed.

(** X28.  [rand_vec3] draws exactly four floats, the fourth after the
    three of the direction.  With floats in [[0, 1)] and a non-negative
    [max_norm], its result has three components and its magnitude is
    the fourth float times [max_norm], hence at most [max_norm]; it has
    no real result exactly when the first three floats are all 0.5. *)
Theorem rand_vec3_magnitude (max_norm : R) (g : rng) :
  uniform01 g -> 0 <= max_norm ->
  (value (fst (rand_vec3 max_norm g)) = None <->
   draws g (cursor g) = 0.5 /\ draws g (S (cursor g)) = 0.5 /\
   draws g (S (S (cursor g))) = 0.5) /\
  (forall v, value (fst (rand_vec3 max_norm g)) = Some v ->
             length v = 3%nat /\
             vecmag v = draws g (3 + cursor g) * max_norm /\
             vecmag v <= max_norm) /\
  cursor (snd (rand_vec3 max_norm g)) = (4 + cursor g)%nat.
Proof.
  intros Hu Hm. rewrite rand_vec3_unfold. cbn [fst snd cursor plus].
  rewrite <- centred_draws_magnitude.
  pose proof (Hu (S (S (S (cursor g))))) as [Ht0 Ht1].
  set (t := draws g (S (S (S (cursor g))))) in *.
  destruct (Req_dec_T (vecmag (centred_draws g)) 0) as [Hz | Hnz].
  - rewrite Hz, centred_draws_by_zero. cbn [bind raise value].
    repeat split; try reflexivity; discriminate.
  - rewrite np_divide_each_ok by assumption. cbn [bind ret value].
    assert (Hmag : vecmag (np_scale (map (fun x => x / vecmag (centred_draws g))
                                       (centred_draws g)) (t * max_norm))
                   = t * max_norm).
    { rewrite vecmag_np_scale by (apply Rmult_le_pos; assumption).
      rewrite normalized_magnitude by assumption. ring. }
    set (w := np_scale _ _) in *.
    repeat split; try discriminate; try contradiction;
      assert (E : w = v) by congruence; subst v.
    + reflexivity.
    + exact Hmag.
    + rewrite Hmag. nra.
Qed.

Lemma rand_vec3_magnitude_witness :
  (value (fst (rand_vec3 5 quarter_rng)) = None <->
   draws quarter_rng (cursor quarter_rng) = 0.5 /\
   draws quarter_rng (S (cursor quarter_rng)) = 0.5 /\
   draws quarter_rng (S (S (cursor quarter_rng))) = 0.5) /\
  (forall v, value (fst (rand_vec3 5 quarter_rng)) = Some v ->
             length v = 3%nat /\
             vecmag v = draws quarter_rng (3 + cursor quarter_rng) * 5 /\
             vecmag v <= 5) /\
  cursor (snd (rand_vec3 5 quarter_rng)) = (4 + cursor quarter_rng)%nat.
Proof.
  apply (rand_vec3_magnitude 5 quarter_rng).
  - intros n. unfold quarter_rng. cbn [draws]. lra.
  - lra.
Defined.

(** * The legacy conversion stores its result in a list of integers *)

Lemma Int_part_small (x : R) : 0 <= x < 1 -> Int_part x = 0%Z.
Proof.
  intros [H0 H1]. destruct (base_Int_part x) as [Hle Hgt].
  assert (Hlt : (Int_part x < 1)%Z) by (apply lt_IZR; lra).
  assert (Hgt' : (-1 < Int_part x)%Z) by (apply lt_IZR; lra).
  lia.
Qed.

(** A float strictly between -1 and 1 is stored as 0. *)
Lemma store_int_small (x : R) : -1 < x < 1 -> store_int x = 0.
Proof.
  intros [Hlo Hhi]. unfold store_int, trunc.
  destruct (Rgeb_spec x 0) as [Hx | Hx].
  - rewrite Int_part_small by lra. reflexivity.
  - rewrite Int_part_small by lra. reflexivity.
Qed.

(** On a rotation matrix the square of a component of a case's
    quaternion is a quarter of the radicand of that component. *)
Lemma shepperd_component_small (d e : dominant) (m : mat3) :
  is_rotation m -> 0 < radicand d m -> radicand e m < 4 ->
  -1 < qcomp e (shepperd d m) < 1.
Proof.
  intros Hrot Hd He.
  pose proof (shepperd_products d e e m Hrot Hd) as Hp.
  rewrite cross_diag in Hp. split; nra.
Qed.

(** On a rotation matrix none of whose radicands reaches 4, the legacy
    conversion stores four zeros. *)
Lemma other_rot_to_quat_zero (m : mat3) :
  is_rotation m -> (forall e, radicand e m < 4) ->
  value (other_rot_to_quat m) = Some (mkquat 0 0 0 0).
Proof.
  intros Hrot Hsmall. pose proof (orq_radicand_ge_1 m) as Hr.
  assert (Hc : forall e, store_int (qcomp e (shepperd (orq_case m) m)) = 0).
  { intros e. apply store_int_small, shepperd_component_small; auto. lra. }
  rewrite orq_eval. cbn [value]. f_equal. unfold qtrunc, int_list.
  f_equal; [apply (Hc DomW) | apply (Hc DomX) | apply (Hc DomY) | apply (Hc DomZ)].
Qed.

Lemma zero_not_unit (q : quat) :
  qdot q q = 1 -> q <> mkquat 0 0 0 0 /\ q <> qneg (mkquat 0 0 0 0).
Proof.
  intros H. split; intros E; rewrite E in H; unfold qdot, qneg in H;
    cbn [qw qx qy qz] in H; lra.
Qed.

Lemma half_turn_xy_radicands (e : dominant) : radicand e half_turn_xy < 4.
Proof.
  destruct e; unfold radicand, np_trace, half_turn_xy;
    cbn [m00 m01 m02 m10 m11 m12 m20 m21 m22]; lra.
Qed.

Lemma half_turn_xy_rotation : is_rotation half_turn_xy.
Proof. unfold half_turn_xy. rotation_by_ring. Qed.

Lemma half_turn_xy_primary :
  value (rotation_to_quaternion half_turn_xy)
  = Some (mkquat 0 (- (sqrt 2 / 2)) (- (sqrt 2 / 2)) 0).
Proof.
  assert (H2 : sqrt 2 * sqrt 2 = 2) by (apply sqrt_sqrt; lra).
  assert (Hp : 0 < sqrt 2) by (apply sqrt_lt_R0; lra).
  rewrite rtq_eval. destruct half_turn_xy_cases as [-> _]. cbn [value].
  unfold shepperd, qneg, half_turn_xy.
  cbn [radicand qw qx qy qz m00 m01 m02 m10 m11 m12 m20 m21 m22].
  replace (1 + 0 - 0 - -1) with 2 by ring.
  f_equal. f_equal; try ring.
  f_equal. apply (Rmult_eq_reg_r (2 * sqrt 2)); [| lra].
  transitivity 2; [field; lra|].
  transitivity (sqrt 2 * sqrt 2); [congruence | field].
Qed.

(** C1.  The half turn [half_turn_xy] is a proper rotation matrix.  On
    it [rotation_to_quaternion] returns (0, -sqrt 2 / 2, -sqrt 2 / 2, 0),
    while [other_rot_to_quat], whose result list holds integers,
    returns (0, 0, 0, 0): the two results are neither equal nor
    opposite. *)
Theorem rot_to_quat_methods_differ :
  is_rotation half_turn_xy /\
  value (rotation_to_quaternion half_turn_xy)
    = Some (mkquat 0 (- (sqrt 2 / 2)) (- (sqrt 2 / 2)) 0) /\
  value (other_rot_to_quat half_turn_xy) = Some (mkquat 0 0 0 0) /\
  mkquat 0 (- (sqrt 2 / 2)) (- (sqrt 2 / 2)) 0 <> mkquat 0 0 0 0 /\
  mkquat 0 (- (sqrt 2 / 2)) (- (sqrt 2 / 2)) 0 <> qneg (mkquat 0 0 0 0).
Proof.
  assert (H2 : sqrt 2 * sqrt 2 = 2) by (apply sqrt_sqrt; lra).
  split; [apply half_turn_xy_rotation|].
  split; [apply half_turn_xy_primary|].
  split.
  - apply other_rot_to_quat_zero;
      [apply half_turn_xy_rotation | apply half_turn_xy_radicands].
  - apply zero_not_unit. unfold qdot. cbn [qw qx qy qz].
    replace (0 * 0 + - (sqrt 2 / 2) * - (sqrt 2 / 2)
             + - (sqrt 2 / 2) * - (sqrt 2 / 2) + 0 * 0)
      with (sqrt 2 * sqrt 2 / 2) by field.
    rewrite H2. field.
Qed.

Lemma q345_unit : qdot q345 q345 = 1.
Proof. unfold qdot, q345. cbn [qw qx qy qz]. field. Qed.

Lemma q345_norm : qnorm q345 = 1.
Proof. unfold qnorm. rewrite q345_unit. apply sqrt_1. Qed.

Lemma q345_radicands (e : dominant) : radicand e (scaled_matrix q345) < 4.
Proof.
  rewrite <- cross_diag, cross_scaled by (rewrite q345_unit; lra).
  rewrite q345_unit. destruct e; unfold q345; cbn [qcomp qw qx qy qz]; lra.
Qed.

(** C3.  (0, 3/5, 0, -4/5) is a unit quaternion.  Its matrix is built
    and is a proper rotation; [rotation_to_quaternion] returns the
    quaternion or its opposite on it, but [other_rot_to_quat], whose
    result list holds integers, returns (0, 0, 0, 0), which is neither
    the quaternion nor its opposite. *)
Theorem rot_mtx_round_trip_legacy_zero :
  qnorm q345 = 1 /\
  exists m q1,
    value (quat_to_rot_mtx q345) = Some m /\
    value (rotation_to_quaternion m) = Some q1 /\
    (q1 = q345 \/ q1 = qneg q345) /\
    value (other_rot_to_quat m) = Some (mkquat 0 0 0 0) /\
    mkquat 0 0 0 0 <> q345 /\ mkquat 0 0 0 0 <> qneg q345.
Proof.
  split; [apply q345_norm|].
  destruct (rotation_to_quaternion_round_trip q345 q345_norm)
    as (m & q1 & Hm & Hq1 & Hsame).
  assert (Em : m = scaled_matrix q345).
  { rewrite quat_to_rot_mtx_nonzero in Hm by (rewrite q345_unit; lra).
    cbn [value] in Hm. congruence. }
  subst m. exists (scaled_matrix q345), q1.
  split; [assumption|]. split; [assumption|]. split; [assumption|].
  split.
  - apply other_rot_to_quat_zero; [| apply q345_radicands].
    apply scaled_matrix_rotation. rewrite q345_unit. lra.
  - split; intros E; apply (f_equal qx) in E; unfold q345, qneg in E;
      cbn [qx] in E; lra.
Qed.

(** X29.  On every proper rotation matrix none of whose four
    radicands reaches 4, [other_rot_to_quat] returns (0, 0, 0, 0),
    while [rotation_to_quaternion] returns a unit quaternion: the
    legacy result is neither equal nor opposite to the primary one. *)
Theorem other_rot_to_quat_all_zero (m : mat3) :
  is_rotation m -> (forall e, radicand e m < 4) ->
  exists q,
    value (rotation_to_quaternion m) = Some q /\ qdot q q = 1 /\
    value (other_rot_to_quat m) = Some (mkquat 0 0 0 0) /\
    q <> mkquat 0 0 0 0 /\ q <> qneg (mkquat 0 0 0 0).
Proof.
  intros Hrot Hsmall. pose proof (rtq_radicand_ge_1 m) as H1.
  assert (U : qdot (qneg (shepperd (rtq_case m) m)) (qneg (shepperd (rtq_case m) m)) = 1).
  { rewrite qdot_qneg. apply shepperd_unit; [assumption | lra]. }
  exists (qneg (shepperd (rtq_case m) m)).
  rewrite rtq_eval. cbn [value]. split; [reflexivity|]. split; [assumption|].
  split; [apply other_rot_to_quat_zero; assumption|].
  apply zero_not_unit. assumption.
Qed.

Lemma other_rot_to_quat_all_zero_witness :
  exists q,
    value (rotation_to_quaternion half_turn_xy) = Some q /\ qdot q q = 1 /\
    value (other_rot_to_quat half_turn_xy) = Some (mkquat 0 0 0 0) /\
    q <> mkquat 0 0 0 0 /\ q <> qneg (mkquat 0 0 0 0).
Proof.
  apply (other_rot_to_quat_all_zero half_turn_xy).
  - unfold half_turn_xy. rotation_by_ring.
  - intros e. destruct e; unfold radicand, np_trace, half_turn_xy;
      cbn [m00 m01 m02 m10 m11 m12 m20 m21 m22]; lra.
Defined.
